(** * Streaming ingestion pipeline of the chat library

    Shallow embedding of [src/utils/streaming.ts], [src/adapters/openai.ts],
    [src/adapters/anthropic.ts] and the turn handling of
    [src/hooks/useChatMessages.ts], followed by the properties proved about
    them.

    Conventions.
    - A JavaScript string is the list of its UTF-16 code units ([list N]).
    - [null] and [undefined] of an optional field are [None].
    - A closure over mutable state is a transition function on that state;
      for the adapters this is proved of closures that reach their map
      through the heap (section Isolation).
    - A [Map] is an association list in insertion order, because the code
      iterates over it.
    - The call stack is deep enough for the recursion of the code: a
      [RangeError] of an exhausted stack is not part of the model. *)

From Stdlib Require Import Ascii String DecimalString.
From stdpp Require Import base numbers list strings gmap.

Local Open Scope Z_scope.
#[local] Set Warnings "-register-all".

(* ===================================================================== *)
(** ** JavaScript strings *)
(* ===================================================================== *)

Abbreviation jsstring := (list N).

(** A literal of the source, written with ASCII characters only. *)
Definition js (s : string) : jsstring :=
  map (fun a => N_of_ascii a) (list_ascii_of_string s).

Fixpoint str_eqb (a b : jsstring) : bool :=
  match a, b with
  | [], [] => true
  | x :: a', y :: b' => N.eqb x y && str_eqb a' b'
  | _, _ => false
  end.

(** [s.startsWith(p)] *)
Fixpoint startsWith (s p : jsstring) {struct p} : bool :=
  match p, s with
  | [], _ => true
  | y :: p', x :: s' => N.eqb x y && startsWith s' p'
  | _ :: _, [] => false
  end.

(** [s.slice(n)] for [0 <= n]. *)
Definition slice_from (s : jsstring) (n : nat) : jsstring := drop n s.

(** Truthiness of a string: the empty string is falsy. *)
Definition truthy_str (s : jsstring) : bool :=
  match s with [] => false | _ :: _ => true end.

(** [o === 'literal'] for an optional string field. *)
Definition is_str (o : option jsstring) (literal : jsstring) : bool :=
  match o with Some s => str_eqb s literal | None => false end.

(** Truthiness of an optional string field. *)
Definition truthy_opt (o : option jsstring) : bool :=
  match o with Some s => truthy_str s | None => false end.

(** WhiteSpace and LineTerminator code points, as removed by
    [String.prototype.trim]. *)
Definition is_js_space (c : N) : bool :=
  ((9 <=? c) && (c <=? 13) || (c =? 32) || (c =? 160) || (c =? 5760)
   || (8192 <=? c) && (c <=? 8202) || (c =? 8232) || (c =? 8233)
   || (c =? 8239) || (c =? 8287) || (c =? 12288) || (c =? 65279))%N.

Fixpoint trimStart (s : jsstring) : jsstring :=
  match s with
  | c :: r => if is_js_space c then trimStart r else s
  | [] => []
  end.

Definition trimEnd (s : jsstring) : jsstring := rev (trimStart (rev s)).

Definition trim (s : jsstring) : jsstring := trimEnd (trimStart s).

Definition LF : N := 10%N.

(** [s.split('\n')]: never empty; the empty string gives one empty piece. *)
Fixpoint split_lf (s : jsstring) : list jsstring :=
  match s with
  | [] => [[]]
  | c :: r =>
      if N.eqb c LF then [] :: split_lf r
      else match split_lf r with
           | l :: ls => (c :: l) :: ls
           | [] => [[c]]
           end
  end.

(** [lines.pop()]: the array without its last element, and that element
    ([undefined], here [None], on an empty array). *)
Definition pop {A} (l : list A) : list A * option A := (removelast l, last l).

(** Decimal rendering of an integer, for template literals. *)
Definition Z_to_js (z : Z) : jsstring :=
  js (NilZero.string_of_int (Z.to_int z)).

(* ===================================================================== *)
(** ** Decoded JSON values and [JSON.parse] *)
(* ===================================================================== *)

(** A value produced by [JSON.parse].  [JNull] is JavaScript's [null], which
    the streaming utilities also use as their absence result.  A number
    keeps its lexeme; an object keeps its own properties in creation
    order, one entry per key. *)
Inductive JValue : Type :=
  | JNull
  | JBool (b : bool)
  | JNumber (lexeme : jsstring)
  | JString (s : jsstring)
  | JArray (items : list JValue)
  | JObject (props : list (jsstring * JValue)).

Definition is_null (v : JValue) : bool :=
  match v with JNull => true | _ => false end.

(** Defining a property: a repeated key keeps its place and takes the
    later value. *)
Fixpoint obj_set (props : list (jsstring * JValue)) (k : jsstring) (v : JValue)
  : list (jsstring * JValue) :=
  match props with
  | [] => [(k, v)]
  | (k', v') :: rest =>
      if str_eqb k' k then (k', v) :: rest else (k', v') :: obj_set rest k v
  end.

Definition is_json_ws (c : N) : bool :=
  ((c =? 32) || (c =? 9) || (c =? 10) || (c =? 13))%N.

Fixpoint skip_ws (s : jsstring) : jsstring :=
  match s with
  | c :: r => if is_json_ws c then skip_ws r else s
  | [] => []
  end.

Definition is_digit (c : N) : bool := ((48 <=? c) && (c <=? 57))%N.

Definition hex_val (c : N) : option N :=
  if is_digit c then Some (c - 48)%N
  else if ((97 <=? c) && (c <=? 102))%N then Some (c - 87)%N
  else if ((65 <=? c) && (c <=? 70))%N then Some (c - 55)%N
  else None.

Definition hex4 (h1 h2 h3 h4 : N) : option N :=
  a ← hex_val h1; b ← hex_val h2; c ← hex_val h3; d ← hex_val h4;
  Some (((a * 16 + b) * 16 + c) * 16 + d)%N.

(** The character after a backslash, other than [u]. *)
Definition simple_escape (e : N) : option N :=
  if (e =? 34)%N then Some 34%N            (* quote *)
  else if (e =? 92)%N then Some 92%N       (* backslash *)
  else if (e =? 47)%N then Some 47%N       (* solidus *)
  else if (e =? 98)%N then Some 8%N        (* b *)
  else if (e =? 102)%N then Some 12%N      (* f *)
  else if (e =? 110)%N then Some 10%N      (* n *)
  else if (e =? 114)%N then Some 13%N      (* r *)
  else if (e =? 116)%N then Some 9%N       (* t *)
  else None.

(** The characters of a string literal after its opening quote, up to
    and including the closing quote. *)
Fixpoint parse_string_body (s : jsstring) : option (jsstring * jsstring) :=
  match s with
  | [] => None
  | c :: r =>
      if (c =? 34)%N then Some ([], r)
      else if (c =? 92)%N then
        match r with
        | [] => None
        | e :: r1 =>
            if (e =? 117)%N then
              match r1 with
              | h1 :: h2 :: h3 :: h4 :: r2 =>
                  cu ← hex4 h1 h2 h3 h4;
                  '(str, rest) ← parse_string_body r2;
                  Some (cu :: str, rest)
              | _ => None
              end
            else
              cu ← simple_escape e;
              '(str, rest) ← parse_string_body r1;
              Some (cu :: str, rest)
        end
      else if (c <? 32)%N then None
      else '(str, rest) ← parse_string_body r; Some (c :: str, rest)
  end.

Fixpoint take_digits (s : jsstring) : jsstring * jsstring :=
  match s with
  | c :: r =>
      if is_digit c then let '(ds, rest) := take_digits r in (c :: ds, rest)
      else ([], s)
  | [] => ([], [])
  end.

(** One or more digits. *)
Definition parse_digits1 (s : jsstring) : option (jsstring * jsstring) :=
  match take_digits s with
  | ([], _) => None
  | (ds, rest) => Some (ds, rest)
  end.

(** A number: an optional minus sign; a zero, or a non-zero digit and
    further digits; optionally a point and digits; optionally an exponent
    mark, a sign and digits.  Each part gives its lexeme and the rest. *)
Definition parse_sign (s : jsstring) : jsstring * jsstring :=
  match s with
  | c :: r => if (c =? 45)%N then ([c], r) else ([], s)
  | [] => ([], s)
  end.

Definition parse_int (s : jsstring) : option (jsstring * jsstring) :=
  match s with
  | d :: r => if (d =? 48)%N then Some ([d], r) else parse_digits1 s
  | [] => None
  end.

Definition parse_frac (s : jsstring) : option (jsstring * jsstring) :=
  match s with
  | c :: r =>
      if (c =? 46)%N
      then '(ds, rest) ← parse_digits1 r; Some (c :: ds, rest)
      else Some ([], s)
  | [] => Some ([], s)
  end.

Definition parse_exp_sign (s : jsstring) : jsstring * jsstring :=
  match s with
  | g :: r => if ((g =? 43) || (g =? 45))%N then ([g], r) else ([], s)
  | [] => ([], s)
  end.

Definition parse_exp (s : jsstring) : option (jsstring * jsstring) :=
  match s with
  | c :: r =>
      if ((c =? 101) || (c =? 69))%N then
        let '(esign, r1) := parse_exp_sign r in
        '(ds, rest) ← parse_digits1 r1; Some (c :: esign ++ ds, rest)
      else Some ([], s)
  | [] => Some ([], s)
  end.

Definition parse_number (s : jsstring) : option (jsstring * jsstring) :=
  let '(sign, s1) := parse_sign s in
  '(int, s2) ← parse_int s1;
  '(frac, s3) ← parse_frac s2;
  '(exp, s4) ← parse_exp s3;
  Some (sign ++ int ++ frac ++ exp, s4).

(** Recursive descent over the JSON grammar.  [fuel] bounds the number of
    nested calls; [JSON_parse] supplies more than any text can use. *)
Fixpoint parse_value (fuel : nat) (s : jsstring) {struct fuel}
  : option (JValue * jsstring) :=
  match fuel with
  | O => None
  | S f =>
      match skip_ws s with
      | [] => None
      | c :: r =>
          if (c =? 123)%N then
            match skip_ws r with
            | c' :: r' =>
                if (c' =? 125)%N then Some (JObject [], r')
                else parse_members f (c' :: r') []
            | [] => None
            end
          else if (c =? 91)%N then
            match skip_ws r with
            | c' :: r' =>
                if (c' =? 93)%N then Some (JArray [], r')
                else parse_elements f (c' :: r') []
            | [] => None
            end
          else if (c =? 34)%N then
            '(str, rest) ← parse_string_body r; Some (JString str, rest)
          else if startsWith (c :: r) (js "true") then
            Some (JBool true, drop 4 (c :: r))
          else if startsWith (c :: r) (js "false") then
            Some (JBool false, drop 5 (c :: r))
          else if startsWith (c :: r) (js "null") then
            Some (JNull, drop 4 (c :: r))
          else
            '(lex, rest) ← parse_number (c :: r); Some (JNumber lex, rest)
      end
  end
with parse_elements (fuel : nat) (s : jsstring) (acc : list JValue) {struct fuel}
  : option (JValue * jsstring) :=
  match fuel with
  | O => None
  | S f =>
      '(v, rest) ← parse_value f s;
      match skip_ws rest with
      | c :: r =>
          if (c =? 44)%N then parse_elements f r (acc ++ [v])
          else if (c =? 93)%N then Some (JArray (acc ++ [v]), r)
          else None
      | [] => None
      end
  end
with parse_members (fuel : nat) (s : jsstring) (acc : list (jsstring * JValue))
  {struct fuel} : option (JValue * jsstring) :=
  match fuel with
  | O => None
  | S f =>
      match skip_ws s with
      | q :: r =>
          if (q =? 34)%N then
            '(key, rest) ← parse_string_body r;
            match skip_ws rest with
            | c :: r1 =>
                if (c =? 58)%N then
                  '(v, rest1) ← parse_value f r1;
                  match skip_ws rest1 with
                  | c2 :: r2 =>
                      if (c2 =? 44)%N then parse_members f r2 (obj_set acc key v)
                      else if (c2 =? 125)%N
                      then Some (JObject (obj_set acc key v), r2)
                      else None
                  | [] => None
                  end
                else None
            | [] => None
            end
          else None
      | [] => None
      end
  end.

(** [JSON.parse(text)]: [None] stands for the [SyntaxError] it throws. *)
Definition JSON_parse (text : jsstring) : option JValue :=
  '(v, rest) ← parse_value (2 * length text + 2) text;
  match skip_ws rest with
  | [] => Some v
  | _ :: _ => None
  end.

(* ===================================================================== *)
(** ** Guarded decoder ([src/utils/streaming.ts]) *)
(* ===================================================================== *)

Definition DEFAULT_MAX_JSON_SIZE : Z := 1024 * 1024.
Definition DEFAULT_MAX_JSON_DEPTH : Z := 100.

Definition is_high_surrogate (c : N) : bool := ((55296 <=? c) && (c <=? 56319))%N.
Definition is_low_surrogate (c : N) : bool := ((56320 <=? c) && (c <=? 57343))%N.

(** [new Blob([s]).size]: the length of the UTF-8 encoding of [s].  A
    surrogate pair is one code point of four bytes; a lone surrogate is
    encoded as U+FFFD, three bytes. *)
Fixpoint blob_size (s : jsstring) : Z :=
  match s with
  | [] => 0
  | c :: r =>
      if (c <? 128)%N then 1 + blob_size r
      else if (c <? 2048)%N then 2 + blob_size r
      else if is_high_surrogate c then
        match r with
        | c2 :: r2 =>
            if is_low_surrogate c2 then 4 + blob_size r2 else 3 + blob_size r
        | [] => 3
        end
      else 3 + blob_size r
  end.

Definition checkJsonSize (jsonString : jsstring) (maxSize : Z) : bool :=
  let size := blob_size jsonString in
  size <=? maxSize.

(** The loops over the items of an array and over the own properties of
    an object stop at the first failing child, as [forallb] does. *)
Fixpoint checkJsonDepth (obj : JValue) (maxDepth : Z) (currentDepth : Z) : bool :=
  if currentDepth >? maxDepth then false
  else
    match obj with
    | JArray items =>
        forallb (fun item => checkJsonDepth item maxDepth (currentDepth + 1)) items
    | JObject props =>
        forallb (fun '(_, item) => checkJsonDepth item maxDepth (currentDepth + 1)) props
    | _ => true
    end.

(** The [try] block catches the [SyntaxError] of [JSON.parse]; both
    warnings go to the console only.  The bare [catch] would also turn a
    [RangeError] of [checkJsonDepth]'s recursion into [null]; that needs
    a tree and a [maxDepth] of thousands of levels, and the model takes
    the stack to be deep enough. *)
Definition safeJsonParse (jsonString : jsstring) (maxSize maxDepth : Z) : JValue :=
  if negb (checkJsonSize jsonString maxSize) then JNull
  else
    match JSON_parse jsonString with
    | Some parsed =>
        if negb (checkJsonDepth parsed maxDepth 0) then JNull else parsed
    | None => JNull
    end.

(* ===================================================================== *)
(** ** Frame parser and line splitter ([src/utils/streaming.ts]) *)
(* ===================================================================== *)

Record ISSEParserOptions := {
  dataField : option jsstring;
  parseJson : option bool;
  maxJsonSize : option Z;
  maxJsonDepth : option Z
}.

(** The options object [{}]. *)
Definition no_options : ISSEParserOptions :=
  {| dataField := None; parseJson := None; maxJsonSize := None; maxJsonDepth := None |}.

Definition parseSSELine (line : jsstring) (options : ISSEParserOptions) : JValue :=
  let dataField' := default (js "data") (dataField options) in
  let parseJson' := default true (parseJson options) in
  let maxJsonSize' := default DEFAULT_MAX_JSON_SIZE (maxJsonSize options) in
  let maxJsonDepth' := default DEFAULT_MAX_JSON_DEPTH (maxJsonDepth options) in
  let trimmed := trim line in
  if negb (truthy_str trimmed) || startsWith trimmed (js ":") then JNull
  else
    let prefix := dataField' ++ js ":" in
    if negb (startsWith trimmed prefix) then JNull
    else
      let content := trim (slice_from trimmed (length prefix)) in
      if str_eqb content (js "[DONE]") then JNull
      else if parseJson' then
        let parsed := safeJsonParse content maxJsonSize' maxJsonDepth' in
        if is_null parsed && truthy_str content then JString content
        else parsed
      else JString content.

(** The parser object of [createSSEParser]: its only state is [buffer]. *)
Record SSEParser := { buffer : jsstring }.

Definition createSSEParser : SSEParser := {| buffer := [] |}.

(** The first half of [feed]: append, split, keep the last piece.  The
    result is the complete lines and the new buffer. *)
Definition feed_lines (p : SSEParser) (chunk : jsstring) : list jsstring * SSEParser :=
  let buffer1 := buffer p ++ chunk in
  let '(lines, lastLine) := pop (split_lf buffer1) in
  (lines, {| buffer := default [] lastLine |}).

(** The second half of [feed]: the values handed to [onData], in order. *)
Definition emit_lines (parserOptions : option ISSEParserOptions) (lines : list jsstring)
  : list JValue :=
  omap (fun line =>
          let data := parseSSELine line (default no_options parserOptions) in
          if is_null data then None else Some data) lines.

(** [parser.feed(chunk)]: the [onData] calls and the parser afterwards. *)
Definition feed (parserOptions : option ISSEParserOptions) (p : SSEParser)
  (chunk : jsstring) : list JValue * SSEParser :=
  let '(lines, p') := feed_lines p chunk in
  (emit_lines parserOptions lines, p').

Definition reset (p : SSEParser) : SSEParser := {| buffer := [] |}.

(** Feeding several chunks in order. *)
Fixpoint feed_lines_all (p : SSEParser) (chunks : list jsstring)
  : list jsstring * SSEParser :=
  match chunks with
  | [] => ([], p)
  | chunk :: rest =>
      let '(lines, p1) := feed_lines p chunk in
      let '(lines', p2) := feed_lines_all p1 rest in
      (lines ++ lines', p2)
  end.

Fixpoint feed_all (parserOptions : option ISSEParserOptions) (p : SSEParser)
  (chunks : list jsstring) : list JValue * SSEParser :=
  match chunks with
  | [] => ([], p)
  | chunk :: rest =>
      let '(out, p1) := feed parserOptions p chunk in
      let '(out', p2) := feed_all parserOptions p1 rest in
      (out ++ out', p2)
  end.

(* ===================================================================== *)
(** ** Canonical events ([IStreamEvent]) *)
(* ===================================================================== *)

Inductive EventType := llm_token | tool_content | tool_start | tool_end | error.

Record IStreamEvent := {
  ev_type : EventType;
  ev_content : option jsstring;
  ev_tool_name : option jsstring;
  ev_output : option jsstring;
  ev_message : option jsstring;
  ev_title : option jsstring;
  ev_input : option jsstring
}.

(** [{ type: 'llm_token', content }] *)
Definition llm_token_event (c : jsstring) : IStreamEvent :=
  {| ev_type := llm_token; ev_content := Some c; ev_tool_name := None;
     ev_output := None; ev_message := None; ev_title := None; ev_input := None |}.

(** [{ type: 'tool_start', tool_name, input }] *)
Definition tool_start_event (name : jsstring) (input : option jsstring) : IStreamEvent :=
  {| ev_type := tool_start; ev_content := None; ev_tool_name := Some name;
     ev_output := None; ev_message := None; ev_title := None; ev_input := input |}.

(** [{ type: 'tool_end', tool_name, output }] *)
Definition tool_end_event (name output : jsstring) : IStreamEvent :=
  {| ev_type := tool_end; ev_content := None; ev_tool_name := Some name;
     ev_output := Some output; ev_message := None; ev_title := None;
     ev_input := None |}.

(** [{ type: 'error', message }] *)
Definition error_event (msg : jsstring) : IStreamEvent :=
  {| ev_type := error; ev_content := None; ev_tool_name := None;
     ev_output := None; ev_message := Some msg; ev_title := None;
     ev_input := None |}.

(* ===================================================================== *)
(** ** [Map<number, V>] in insertion order *)
(* ===================================================================== *)

Section JsMap.
Context {V : Type}.

Fixpoint map_get (m : list (Z * V)) (k : Z) : option V :=
  match m with
  | [] => None
  | (k', v) :: rest => if Z.eqb k' k then Some v else map_get rest k
  end.

(** [m.set(k, v)]: an existing key keeps its position. *)
Fixpoint map_set (m : list (Z * V)) (k : Z) (v : V) : list (Z * V) :=
  match m with
  | [] => [(k, v)]
  | (k', v') :: rest =>
      if Z.eqb k' k then (k', v) :: rest else (k', v') :: map_set rest k v
  end.

Fixpoint map_delete (m : list (Z * V)) (k : Z) : list (Z * V) :=
  match m with
  | [] => []
  | (k', v') :: rest =>
      if Z.eqb k' k then rest else (k', v') :: map_delete rest k
  end.

Definition map_clear (m : list (Z * V)) : list (Z * V) := [].
End JsMap.

(* ===================================================================== *)
(** ** Provider frames ([src/adapters/types.ts]) *)
(* ===================================================================== *)

(** Fields the adapters never read ([id], [object], [created], [model],
    [usage], [role], [message], ...) are left out. *)

Record IOpenAIFunction := {
  fn_name : option jsstring;
  fn_arguments : option jsstring
}.

Record IOpenAIToolCall := {
  tc_index : option Z;
  tc_id : option jsstring;
  tc_function : option IOpenAIFunction
}.

Record IOpenAIDelta := {
  delta_content : option jsstring;                (* string | null | undefined *)
  delta_tool_calls : option (list IOpenAIToolCall)
}.

Record IOpenAIChoice := {
  choice_delta : option IOpenAIDelta;
  choice_finish_reason : option jsstring           (* string | null | undefined *)
}.

Record IOpenAIStreamChunk := {
  chunk_choices : option (list IOpenAIChoice)
}.

Record IAnthropicContentBlock := {
  cb_type : jsstring;
  cb_id : option jsstring;
  cb_name : option jsstring
}.

Record IAnthropicDelta := {
  d_type : option jsstring;
  d_text : option jsstring;
  d_partial_json : option jsstring
}.

Record IAnthropicError := {
  err_message : option jsstring
}.

Record IAnthropicStreamEvent := {
  a_type : jsstring;
  a_index : option Z;
  a_content_block : option IAnthropicContentBlock;
  a_delta : option IAnthropicDelta;
  a_error : option IAnthropicError
}.

(** What an adapter can be handed as [rawEvent: unknown]: a value that is
    not an object (or is [null]), or an object of one of the provider
    shapes.  An object of the other provider's shape has none of the
    fields an adapter reads. *)
Inductive RawEvent :=
  | RawNonObject
  | RawOpenAI (chunk : IOpenAIStreamChunk)
  | RawAnthropic (event : IAnthropicStreamEvent).

(* ===================================================================== *)
(** ** OpenAI adapter ([src/adapters/openai.ts]) *)
(* ===================================================================== *)

Record IToolCallState := {
  tcs_id : jsstring;
  tcs_name : jsstring;
  tcs_arguments : jsstring
}.

(** The private state of one adapter: [toolCallsInProgress]. *)
Abbreviation OpenAIState := (list (Z * IToolCallState)).

(** The body of [for (const toolCall of delta.tool_calls)].  [Some e] in
    the result is a [return e] from inside the loop. *)
Fixpoint openai_tool_calls_loop (tool_calls : list IOpenAIToolCall)
  (toolCallsInProgress : OpenAIState) : OpenAIState * option IStreamEvent :=
  match tool_calls with
  | [] => (toolCallsInProgress, None)
  | toolCall :: rest =>
      let index := default 0 (tc_index toolCall) in
      let name := tc_function toolCall ≫= fn_name in
      let args := tc_function toolCall ≫= fn_arguments in
      if truthy_opt name then
        let name' := default [] name in
        (map_set toolCallsInProgress index
           {| tcs_id := default (js "tool_" ++ Z_to_js index) (tc_id toolCall);
              tcs_name := name';
              tcs_arguments := default [] args |},
         Some (tool_start_event name' args))
      else
        let toolCallsInProgress' :=
          if truthy_opt args then
            match map_get toolCallsInProgress index with
            | Some existing =>
                map_set toolCallsInProgress index
                  {| tcs_id := tcs_id existing;
                     tcs_name := tcs_name existing;
                     tcs_arguments := tcs_arguments existing ++ default [] args |}
            | None => toolCallsInProgress
            end
          else toolCallsInProgress in
        openai_tool_calls_loop rest toolCallsInProgress'
  end.

(** The closure returned by [createOpenAIAdapter], as a transition on its
    private map. *)
Definition openai_adapter (toolCallsInProgress : OpenAIState) (rawEvent : RawEvent)
  : OpenAIState * option IStreamEvent :=
  match rawEvent with
  | RawOpenAI chunk =>
      match chunk_choices chunk ≫= head with
      | None => (toolCallsInProgress, None)
      | Some choice =>
          let delta := choice_delta choice in
          if truthy_opt (delta ≫= delta_content) then
            (toolCallsInProgress,
             Some (llm_token_event (default [] (delta ≫= delta_content))))
          else
            let '(st1, returned) :=
              match delta ≫= delta_tool_calls with
              | Some tool_calls => openai_tool_calls_loop tool_calls toolCallsInProgress
              | None => (toolCallsInProgress, None)
              end in
            match returned with
            | Some e => (st1, Some e)
            | None =>
                (* [events] is still empty here *)
                if is_str (choice_finish_reason choice) (js "tool_calls") then
                  match st1 with
                  | (_, toolCall) :: _ =>
                      (* returns on the first entry; [clear] is not reached *)
                      (st1, Some (tool_end_event (tcs_name toolCall)
                                                 (tcs_arguments toolCall)))
                  | [] => (map_clear st1, None)
                  end
                else (st1, None)
            end
      end
  | _ => (toolCallsInProgress, None)
  end.

(** [createOpenAIAdapter()]: a fresh, empty map. *)
Definition createOpenAIAdapter : OpenAIState := [].

(* ===================================================================== *)
(** ** Anthropic adapter ([src/adapters/anthropic.ts]) *)
(* ===================================================================== *)

Record IToolUseState := {
  tus_id : jsstring;
  tus_name : jsstring;
  tus_input : jsstring
}.

(** The private state of one adapter: [toolUseInProgress]. *)
Abbreviation AnthropicState := (list (Z * IToolUseState)).

Definition anthropic_adapter (toolUseInProgress : AnthropicState) (rawEvent : RawEvent)
  : AnthropicState * option IStreamEvent :=
  match rawEvent with
  | RawAnthropic event =>
      if str_eqb (a_type event) (js "content_block_start") then
        match a_content_block event with
        | Some content_block =>
            if str_eqb (cb_type content_block) (js "tool_use") then
              let index := default 0 (a_index event) in
              (map_set toolUseInProgress index
                 {| tus_id := default (js "tool_" ++ Z_to_js index) (cb_id content_block);
                    tus_name := default (js "unknown_tool") (cb_name content_block);
                    tus_input := [] |},
               Some (tool_start_event
                       (default (js "unknown_tool") (cb_name content_block)) None))
            else (toolUseInProgress, None)
        | None => (toolUseInProgress, None)
        end
      else if str_eqb (a_type event) (js "content_block_delta") then
        let dtype := a_delta event ≫= d_type in
        let text := a_delta event ≫= d_text in
        let partial_json := a_delta event ≫= d_partial_json in
        if is_str dtype (js "text_delta") && truthy_opt text then
          (toolUseInProgress, Some (llm_token_event (default [] text)))
        else if is_str dtype (js "input_json_delta") && truthy_opt partial_json then
          let index := default 0 (a_index event) in
          match map_get toolUseInProgress index with
          | Some existing =>
              (map_set toolUseInProgress index
                 {| tus_id := tus_id existing;
                    tus_name := tus_name existing;
                    tus_input := tus_input existing ++ default [] partial_json |},
               None)
          | None => (toolUseInProgress, None)
          end
        else (toolUseInProgress, None)
      else if str_eqb (a_type event) (js "content_block_stop") then
        let index := default 0 (a_index event) in
        match map_get toolUseInProgress index with
        | Some toolUse =>
            (map_delete toolUseInProgress index,
             Some (tool_end_event (tus_name toolUse) (tus_input toolUse)))
        | None => (toolUseInProgress, None)
        end
      else if str_eqb (a_type event) (js "error") then
        (toolUseInProgress,
         Some (error_event
                 (default (js "Unknown Anthropic API error")
                          (a_error event ≫= err_message))))
      else
        (* message_start, message_delta, message_stop, ping, default *)
        (toolUseInProgress, None)
  | _ => (toolUseInProgress, None)
  end.

(** [createAnthropicAdapter()]: a fresh, empty map. *)
Definition createAnthropicAdapter : AnthropicState := [].

(* ===================================================================== *)
(** ** Adapter closures on the heap of a JavaScript realm *)
(* ===================================================================== *)

(** [new Map()] allocates an object on the heap and yields a reference
    to it.  The closure that a factory returns holds the reference of
    the map allocated by that factory call, and its body reaches the map
    through the heap.  The two bodies below are those of the adapters
    once more, with every [get], [set], [delete], [clear] and iteration
    made on the heap: which object a closure reads and writes is decided
    by its code, and that it behaves as the transition function above on
    a state of its own is proved, not assumed. *)
Inductive MapObject :=
  | ToolCallsMap (entries : OpenAIState)
  | ToolUseMap (entries : AnthropicState).

Record Heap := {
  objects : gmap nat MapObject;
  next_loc : nat
}.

Definition empty_heap : Heap := {| objects := ∅; next_loc := 0 |}.

(** [new Map()]: the next free location holds the new, empty map. *)
Definition new_Map (o : MapObject) (h : Heap) : nat * Heap :=
  (next_loc h,
   {| objects := <[next_loc h := o]> (objects h); next_loc := S (next_loc h) |}).

(** The object behind reference [l] becomes [o]. *)
Definition store (l : nat) (o : MapObject) (h : Heap) : Heap :=
  {| objects := <[l := o]> (objects h); next_loc := next_loc h |}.

(** The entries of the map of tool calls behind a reference. *)
Definition tool_calls_at (h : Heap) (l : nat) : OpenAIState :=
  match objects h !! l with Some (ToolCallsMap m) => m | _ => [] end.

Definition tool_uses_at (h : Heap) (l : nat) : AnthropicState :=
  match objects h !! l with Some (ToolUseMap m) => m | _ => [] end.

(** [m.set(k, v)], [m.clear()] and [m.delete(k)] on the map behind [l]. *)
Definition tool_calls_set (h : Heap) (l : nat) (k : Z) (v : IToolCallState) : Heap :=
  store l (ToolCallsMap (map_set (tool_calls_at h l) k v)) h.

Definition tool_calls_clear (h : Heap) (l : nat) : Heap :=
  store l (ToolCallsMap (map_clear (tool_calls_at h l))) h.

Definition tool_uses_set (h : Heap) (l : nat) (k : Z) (v : IToolUseState) : Heap :=
  store l (ToolUseMap (map_set (tool_uses_at h l) k v)) h.

Definition tool_uses_delete (h : Heap) (l : nat) (k : Z) : Heap :=
  store l (ToolUseMap (map_delete (tool_uses_at h l) k)) h.

(** A closure returned by a factory: the code of one of the adapters
    with the reference it captured as [toolCallsInProgress] or
    [toolUseInProgress]. *)
Inductive Closure :=
  | OpenAIClosure (toolCallsInProgress : nat)
  | AnthropicClosure (toolUseInProgress : nat).

Definition captured (c : Closure) : nat :=
  match c with OpenAIClosure l => l | AnthropicClosure l => l end.

(** [createOpenAIAdapter()]: [const toolCallsInProgress = new Map()],
    then the closure over it is returned. *)
Definition createOpenAIAdapter_closure (h : Heap) : Closure * Heap :=
  let '(toolCallsInProgress, h1) := new_Map (ToolCallsMap []) h in
  (OpenAIClosure toolCallsInProgress, h1).

(** [createAnthropicAdapter()]: [const toolUseInProgress = new Map()],
    then the closure over it is returned. *)
Definition createAnthropicAdapter_closure (h : Heap) : Closure * Heap :=
  let '(toolUseInProgress, h1) := new_Map (ToolUseMap []) h in
  (AnthropicClosure toolUseInProgress, h1).

(** The loop over [delta.tool_calls] in the body of the OpenAI closure. *)
Fixpoint openai_closure_loop (toolCallsInProgress : nat)
  (tool_calls : list IOpenAIToolCall) (h : Heap) : Heap * option IStreamEvent :=
  match tool_calls with
  | [] => (h, None)
  | toolCall :: rest =>
      let index := default 0 (tc_index toolCall) in
      let name := tc_function toolCall ≫= fn_name in
      let args := tc_function toolCall ≫= fn_arguments in
      if truthy_opt name then
        let name' := default [] name in
        (tool_calls_set h toolCallsInProgress index
           {| tcs_id := default (js "tool_" ++ Z_to_js index) (tc_id toolCall);
              tcs_name := name';
              tcs_arguments := default [] args |},
         Some (tool_start_event name' args))
      else
        let h1 :=
          if truthy_opt args then
            match map_get (tool_calls_at h toolCallsInProgress) index with
            | Some existing =>
                tool_calls_set h toolCallsInProgress index
                  {| tcs_id := tcs_id existing;
                     tcs_name := tcs_name existing;
                     tcs_arguments := tcs_arguments existing ++ default [] args |}
            | None => h
            end
          else h in
        openai_closure_loop toolCallsInProgress rest h1
  end.

(** The body of the closure of [createOpenAIAdapter]. *)
Definition openai_closure (toolCallsInProgress : nat) (rawEvent : RawEvent) (h : Heap)
  : Heap * option IStreamEvent :=
  match rawEvent with
  | RawOpenAI chunk =>
      match chunk_choices chunk ≫= head with
      | None => (h, None)
      | Some choice =>
          let delta := choice_delta choice in
          if truthy_opt (delta ≫= delta_content) then
            (h, Some (llm_token_event (default [] (delta ≫= delta_content))))
          else
            let '(h1, returned) :=
              match delta ≫= delta_tool_calls with
              | Some tool_calls => openai_closure_loop toolCallsInProgress tool_calls h
              | None => (h, None)
              end in
            match returned with
            | Some e => (h1, Some e)
            | None =>
                if is_str (choice_finish_reason choice) (js "tool_calls") then
                  match tool_calls_at h1 toolCallsInProgress with
                  | (_, toolCall) :: _ =>
                      (h1, Some (tool_end_event (tcs_name toolCall)
                                                (tcs_arguments toolCall)))
                  | [] => (tool_calls_clear h1 toolCallsInProgress, None)
                  end
                else (h1, None)
            end
      end
  | _ => (h, None)
  end.

(** The body of the closure of [createAnthropicAdapter]. *)
Definition anthropic_closure (toolUseInProgress : nat) (rawEvent : RawEvent) (h : Heap)
  : Heap * option IStreamEvent :=
  match rawEvent with
  | RawAnthropic event =>
      if str_eqb (a_type event) (js "content_block_start") then
        match a_content_block event with
        | Some content_block =>
            if str_eqb (cb_type content_block) (js "tool_use") then
              let index := default 0 (a_index event) in
              (tool_uses_set h toolUseInProgress index
                 {| tus_id := default (js "tool_" ++ Z_to_js index) (cb_id content_block);
                    tus_name := default (js "unknown_tool") (cb_name content_block);
                    tus_input := [] |},
               Some (tool_start_event
                       (default (js "unknown_tool") (cb_name content_block)) None))
            else (h, None)
        | None => (h, None)
        end
      else if str_eqb (a_type event) (js "content_block_delta") then
        let dtype := a_delta event ≫= d_type in
        let text := a_delta event ≫= d_text in
        let partial_json := a_delta event ≫= d_partial_json in
        if is_str dtype (js "text_delta") && truthy_opt text then
          (h, Some (llm_token_event (default [] text)))
        else if is_str dtype (js "input_json_delta") && truthy_opt partial_json then
          let index := default 0 (a_index event) in
          match map_get (tool_uses_at h toolUseInProgress) index with
          | Some existing =>
              (tool_uses_set h toolUseInProgress index
                 {| tus_id := tus_id existing;
                    tus_name := tus_name existing;
                    tus_input := tus_input existing ++ default [] partial_json |},
               None)
          | None => (h, None)
          end
        else (h, None)
      else if str_eqb (a_type event) (js "content_block_stop") then
        let index := default 0 (a_index event) in
        match map_get (tool_uses_at h toolUseInProgress) index with
        | Some toolUse =>
            (tool_uses_delete h toolUseInProgress index,
             Some (tool_end_event (tus_name toolUse) (tus_input toolUse)))
        | None => (h, None)
        end
      else if str_eqb (a_type event) (js "error") then
        (h,
         Some (error_event
                 (default (js "Unknown Anthropic API error")
                          (a_error event ≫= err_message))))
      else (h, None)
  | _ => (h, None)
  end.

Inductive Provider := OpenAI | Anthropic.

(** A call of one of the two factories. *)
Definition create_closure (p : Provider) (h : Heap) : Closure * Heap :=
  match p with
  | OpenAI => createOpenAIAdapter_closure h
  | Anthropic => createAnthropicAdapter_closure h
  end.

(** [adapter(rawEvent)] *)
Definition call_closure (c : Closure) (rawEvent : RawEvent) (h : Heap)
  : Heap * option IStreamEvent :=
  match c with
  | OpenAIClosure l => openai_closure l rawEvent h
  | AnthropicClosure l => anthropic_closure l rawEvent h
  end.

(** A program that uses the adapters: it calls the factories and the
    adapters it has obtained, in any order.  The adapters are named by
    the order of their creation, so that a program can call nothing but
    what a factory has returned to it. *)
Inductive Op :=
  | NewAdapter (p : Provider)
  | CallAdapter (i : nat) (rawEvent : RawEvent).

Record World := {
  heap : Heap;
  created : list Closure
}.

Definition empty_world : World := {| heap := empty_heap; created := [] |}.

(** One call as the program sees it: the adapter called, the frame it
    was handed and what it returned. *)
Record Call := {
  call_target : nat;
  call_frame : RawEvent;
  call_result : option IStreamEvent
}.

(** Running a program; a call on an adapter that has not been created
    yet is no call. *)
Fixpoint run (ops : list Op) (w : World) : list Call * World :=
  match ops with
  | [] => ([], w)
  | NewAdapter p :: rest =>
      let '(c, h1) := create_closure p (heap w) in
      run rest {| heap := h1; created := created w ++ [c] |}
  | CallAdapter i rawEvent :: rest =>
      match created w !! i with
      | Some c =>
          let '(h1, e) := call_closure c rawEvent (heap w) in
          let '(log, w1) := run rest {| heap := h1; created := created w |} in
          ({| call_target := i; call_frame := rawEvent; call_result := e |} :: log, w1)
      | None => run rest w
      end
  end.

(** The calls of a log that were made on adapter [i]. *)
Definition calls_on (i : nat) (log : list Call) : list Call :=
  List.filter (fun c => Nat.eqb (call_target c) i) log.

(** The transition function that goes with a map object, and the map a
    closure starts from. *)
Definition object_step (o : MapObject) (rawEvent : RawEvent)
  : MapObject * option IStreamEvent :=
  match o with
  | ToolCallsMap m =>
      let '(m1, e) := openai_adapter m rawEvent in (ToolCallsMap m1, e)
  | ToolUseMap m =>
      let '(m1, e) := anthropic_adapter m rawEvent in (ToolUseMap m1, e)
  end.

Definition fresh_object (c : Closure) : MapObject :=
  match c with
  | OpenAIClosure _ => ToolCallsMap createOpenAIAdapter
  | AnthropicClosure _ => ToolUseMap createAnthropicAdapter
  end.

Definition kind_ok (c : Closure) (o : MapObject) : Prop :=
  match c, o with
  | OpenAIClosure _, ToolCallsMap _ => True
  | AnthropicClosure _, ToolUseMap _ => True
  | _, _ => False
  end.

(** What holds of every world a program can reach: the closures created
    so far captured different references, each allocated, each to a map
    of the closure's kind. *)
Definition reachable (w : World) : Prop :=
  NoDup (map captured (created w)) /\
  Forall (fun c => (captured c < next_loc (heap w))%nat /\
                   exists o, objects (heap w) !! captured c = Some o /\ kind_ok c o)
         (created w).

(* ===================================================================== *)
(** ** Stream driver ([streamSSE], [src/utils/streaming.ts]) *)
(* ===================================================================== *)

(** A thrown value: an [Error] (or [DOMException]) with its [name] and
    [message], or something that is not an [Error], with its [String]. *)
Inductive Thrown :=
  | ThrownError (name message : jsstring)
  | ThrownOther (text : jsstring).

(** What the platform answers at each suspension point of one run. *)
Inductive ReadResult :=
  | ReadChunk (text : jsstring)       (* [{done: false, value}], decoded *)
  | ReadDone                          (* [{done: true}] *)
  | ReadRejects (e : Thrown).

Record Response := {
  resp_ok : bool;
  resp_status : Z;
  resp_text : Thrown + jsstring;              (* how [response.text()] settles *)
  resp_body : option (list ReadResult)        (* [null], or the reads in order *)
}.

Inductive FetchResult :=
  | FetchRejects (e : Thrown)
  | FetchResolves (response : Response).

(** The calls made on the three callbacks, in order.  [onError] always
    receives an [Error]. *)
Inductive Callback :=
  | OnEvent (e : IStreamEvent)
  | OnComplete
  | OnError (name message : jsstring).

(** [error instanceof Error ? error : new Error(String(error))] *)
Definition as_Error (e : Thrown) : Callback :=
  match e with
  | ThrownError name message => OnError name message
  | ThrownOther text => OnError (js "Error") text
  end.

(** [error instanceof Error && error.name === 'AbortError'] *)
Definition is_abort (e : Thrown) : bool :=
  match e with
  | ThrownError name _ => str_eqb name (js "AbortError")
  | ThrownOther _ => false
  end.

(** The rejection of a pending [fetch] or [read] whose signal is aborted. *)
Definition AbortError : Thrown :=
  ThrownError (js "AbortError") (js "The operation was aborted.").

Section StreamDriver.
(** The adapter passed in [options]: a closure over state [St]. *)
Context {St : Type}.
Variable adapter : St -> JValue -> St * option IStreamEvent.

(** The [onData] callback of the driver's parser, over the values of one
    [feed]. *)
Fixpoint on_data (st : St) (values : list JValue) : list Callback * St :=
  match values with
  | [] => ([], st)
  | data :: rest =>
      let '(st1, event) := adapter st data in
      let '(cbs, st2) := on_data st1 rest in
      (match event with Some e => OnEvent e :: cbs | None => cbs end, st2)
  end.

(** The [while (true)] loop.  The second component is the value thrown
    out of the loop, if any.  When the reads run out the next read
    stays pending. *)
Fixpoint read_loop (reads : list ReadResult) (parser : SSEParser) (st : St)
  : list Callback * option Thrown :=
  match reads with
  | [] => ([], None)
  | ReadDone :: _ => ([OnComplete], None)
  | ReadRejects e :: _ => ([], Some e)
  | ReadChunk chunk :: rest =>
      let '(values, parser1) := feed None parser chunk in
      let '(cbs, st1) := on_data st values in
      let '(cbs', thrown) := read_loop rest parser1 st1 in
      (cbs ++ cbs', thrown)
  end.

Definition streamSSE (fetch : FetchResult) (st : St) : list Callback :=
  match fetch with
  | FetchRejects e => [as_Error e]
  | FetchResolves response =>
      if negb (resp_ok response) then
        match resp_text response with
        | inl e => [as_Error e]
        | inr errorText =>
            [OnError (js "Error")
               (js "HTTP " ++ Z_to_js (resp_status response) ++ js ": " ++ errorText)]
        end
      else
        match resp_body response with
        | None => [OnError (js "Error") (js "Response body is null")]
        | Some reads =>
            let '(cbs, thrown) := read_loop reads createSSEParser st in
            match thrown with
            | None => cbs
            | Some e =>
                if is_abort e then cbs ++ [OnComplete]
                else cbs ++ [as_Error e]
            end
        end
  end.
End StreamDriver.

(** The run in which the abort signal fires after [n] suspension points
    have settled: [0] is while [fetch] is pending; [n + 1] is while the
    read after the first [n] ones is pending or, for [n = 0], while
    [response.text()] is. *)
Definition abort_after (n : nat) (fetch : FetchResult) : FetchResult :=
  match n with
  | O => FetchRejects AbortError
  | S k =>
      match fetch with
      | FetchResolves response =>
          FetchResolves
            {| resp_ok := resp_ok response;
               resp_status := resp_status response;
               resp_text := match k with
                            | O => inl AbortError
                            | S _ => resp_text response
                            end;
               resp_body := (fun reads => take k reads ++ [ReadRejects AbortError])
                              <$> resp_body response |}
      | FetchRejects e => FetchRejects e
      end
  end.

Definition is_OnComplete (c : Callback) : bool :=
  match c with OnComplete => true | _ => false end.

Definition count_complete (cbs : list Callback) : nat :=
  length (filter (fun c => is_OnComplete c) cbs).

Definition is_OnError (c : Callback) : bool :=
  match c with OnError _ _ => true | _ => false end.

(* ===================================================================== *)
(** ** Turn handling ([useChatMessages], [src/hooks/useChatMessages.ts]) *)
(* ===================================================================== *)

Inductive MessageRole := user | assistant.

Inductive IContentSegment :=
  | TextSegment (content : jsstring)     (* [{ type: 'text', content }] *)
  | ToolSegment (toolIndex : Z).         (* [{ type: 'tool', toolIndex }] *)

Record IPdfFile := {
  pdf_uuid : jsstring;
  pdf_name : jsstring
}.

Record IMessage := {
  msg_id : jsstring;
  msg_role : MessageRole;
  msg_content : jsstring;
  msg_attachedFiles : option (list IPdfFile);
  msg_contentSegments : option (list IContentSegment);
  msg_timestamp : Z
}.

(** The React state and the refs of one mounted hook.  An
    [AbortController] is known by a number; [aborted] lists the
    controllers whose signal has fired. *)
Record ChatHook := {
  messages : list IMessage;
  isStreaming : bool;
  uploadedPdfs : list IPdfFile;
  accumulatedContentRef : jsstring;
  contentSegmentsRef : list IContentSegment;
  currentTextSegmentRef : jsstring;
  abortControllerRef : option nat;
  aborted : list nat;
  controllers : nat
}.

(** Which transport the options provide. *)
Inductive Transport := SendMessageToApi | StreamConfig | NoTransport.

(** What the environment supplies to one [sendMessage]: two results of
    [generateId()] and two of [new Date()]. *)
Record TurnEnv := {
  userMessageId : jsstring;
  userTimestamp : Z;
  assistantMessageId : jsstring;
  assistantTimestamp : Z
}.


(** [msgs.slice(-n)] for [0 < n]. *)
Definition slice_last {A} (msgs : list A) (n : Z) : list A :=
  drop (length msgs - Z.to_nat n) msgs.

Definition trimMessages (maxMessages : Z) (msgs : list IMessage) : list IMessage :=
  if (maxMessages <=? 0) || (Z.of_nat (length msgs) <=? maxMessages) then msgs
  else slice_last msgs maxMessages.

(** [const updated = [...prev]; const lastMessage = updated[updated.length - 1];
    if (lastMessage && lastMessage.role === 'assistant') { ... }] *)
Definition update_last_assistant (f : IMessage -> IMessage) (prev : list IMessage)
  : list IMessage :=
  match last prev with
  | Some lastMessage =>
      match msg_role lastMessage with
      | assistant => removelast prev ++ [f lastMessage]
      | user => prev
      end
  | None => prev
  end.

Definition with_content (c : jsstring) (m : IMessage) : IMessage :=
  {| msg_id := msg_id m; msg_role := msg_role m; msg_content := c;
     msg_attachedFiles := msg_attachedFiles m;
     msg_contentSegments := msg_contentSegments m;
     msg_timestamp := msg_timestamp m |}.

Definition with_segments (segs : list IContentSegment) (m : IMessage) : IMessage :=
  {| msg_id := msg_id m; msg_role := msg_role m; msg_content := msg_content m;
     msg_attachedFiles := msg_attachedFiles m;
     msg_contentSegments := Some segs;
     msg_timestamp := msg_timestamp m |}.

(** The segments with the current text as their last text segment. *)
Definition put_text_segment (segments : list IContentSegment) (text : jsstring)
  : list IContentSegment :=
  match last segments with
  | Some (TextSegment _) => removelast segments ++ [TextSegment text]
  | _ => segments ++ [TextSegment text]
  end.

Definition handleStreamEvent (event : IStreamEvent) (h : ChatHook) : ChatHook :=
  match ev_type event with
  | llm_token | tool_content =>
      if truthy_opt (ev_content event) then
        let contentToAdd := default [] (ev_content event) in
        let accumulated := accumulatedContentRef h ++ contentToAdd in
        let current := currentTextSegmentRef h ++ contentToAdd in
        let segments := put_text_segment (contentSegmentsRef h) current in
        {| messages :=
             update_last_assistant (with_segments segments)
               (update_last_assistant (with_content accumulated) (messages h));
           isStreaming := isStreaming h;
           uploadedPdfs := uploadedPdfs h;
           accumulatedContentRef := accumulated;
           contentSegmentsRef := segments;
           currentTextSegmentRef := current;
           abortControllerRef := abortControllerRef h;
           aborted := aborted h;
           controllers := controllers h |}
      else h
  | tool_start | tool_end => h
  | error => h
  end.

(** The two messages [sendMessage] builds. *)
Definition userMessage (env : TurnEnv) (userInput : jsstring) (h : ChatHook) : IMessage :=
  {| msg_id := userMessageId env; msg_role := user; msg_content := userInput;
     msg_attachedFiles :=
       match uploadedPdfs h with [] => None | _ :: _ => Some (uploadedPdfs h) end;
     msg_contentSegments := None;
     msg_timestamp := userTimestamp env |}.

Definition assistantMessage (env : TurnEnv) : IMessage :=
  {| msg_id := assistantMessageId env; msg_role := assistant; msg_content := [];
     msg_attachedFiles := None; msg_contentSegments := None;
     msg_timestamp := assistantTimestamp env |}.

(** [sendMessage] up to its [await]: everything it does before the
    transport gets to run. *)
Definition sendMessage (maxMessages : Z) (transport : Transport) (env : TurnEnv)
  (userInput : jsstring) (h : ChatHook) : ChatHook :=
  if negb (truthy_str (trim userInput)) then h
  else
    let messages1 :=
      trimMessages maxMessages (messages h ++ [userMessage env userInput h]) in
    let messages2 :=
      trimMessages maxMessages (messages1 ++ [assistantMessage env]) in
    {| messages := messages2;
       isStreaming := match transport with NoTransport => false | _ => true end;
       uploadedPdfs := [];
       accumulatedContentRef := [];
       contentSegmentsRef := [];
       currentTextSegmentRef := [];
       abortControllerRef := Some (controllers h);
       aborted := aborted h;
       controllers := S (controllers h) |}.

Definition stopStreaming (h : ChatHook) : ChatHook :=
  match abortControllerRef h with
  | Some controller =>
      {| messages :=
           match last (messages h) with
           | Some lastMessage =>
               match msg_role lastMessage with
               | assistant =>
                   if negb (truthy_str (trim (msg_content lastMessage)))
                   then removelast (messages h)       (* [prev.slice(0, -1)] *)
                   else messages h
               | user => messages h
               end
           | None => messages h
           end;
         isStreaming := false;
         uploadedPdfs := uploadedPdfs h;
         accumulatedContentRef := [];
         contentSegmentsRef := [];
         currentTextSegmentRef := [];
         abortControllerRef := None;
         aborted := controller :: aborted h;
         controllers := controllers h |}
  | None => h
  end.

(** Events delivered to [onEvent] in order. *)
Definition deliver (events : list IStreamEvent) (h : ChatHook) : ChatHook :=
  foldl (fun h' e => handleStreamEvent e h') h events.

(** An event that carries text for the message. *)
Definition is_token (event : IStreamEvent) : bool :=
  match ev_type event with
  | llm_token | tool_content => truthy_opt (ev_content event)
  | _ => false
  end.

(* ===================================================================== *)
(** ** Vocabulary of the properties *)
(* ===================================================================== *)

(** The text made of the given lines, each followed by a line feed. *)
Definition join_lf (lines : list jsstring) : jsstring :=
  concat (map (fun l => l ++ [LF]) lines).

(** The largest member of a list of depths, [0] for none. *)
Definition max_list (l : list Z) : Z := foldr Z.max 0 l.

(** The depth at which the most deeply placed value of a tree sits: the
    number of arrays and objects around it.  An empty array or object
    holds no value and so adds nothing. *)
Fixpoint enclosing (v : JValue) : Z :=
  match v with
  | JArray items => max_list (map (fun item => 1 + enclosing item) items)
  | JObject props => max_list (map (fun '(_, item) => 1 + enclosing item) props)
  | _ => 0
  end.

(** The number of nested array and object levels of a tree, each level
    counted as one, empty or not. *)
Fixpoint levels (v : JValue) : Z :=
  match v with
  | JArray items => 1 + max_list (map levels items)
  | JObject props => 1 + max_list (map (fun '(_, item) => levels item) props)
  | _ => 0
  end.

(** The text of [n] arrays nested around [inner], each holding only the
    next one, and the value it denotes around the value of [inner]. *)
Definition nested_arrays_text (n : nat) (inner : jsstring) : jsstring :=
  concat (replicate n (js "[")) ++ inner ++ concat (replicate n (js "]")).

Definition nested_arrays (n : nat) (inner : JValue) : JValue :=
  Nat.iter n (fun v => JArray [v]) inner.

(** UTF-16 decoding into code points; a surrogate that is not part of a
    pair becomes U+FFFD. *)
Fixpoint code_points (s : jsstring) : list N :=
  match s with
  | [] => []
  | c :: r =>
      if is_high_surrogate c then
        match r with
        | c2 :: r2 =>
            if is_low_surrogate c2
            then (65536 + (c - 55296) * 1024 + (c2 - 56320))%N :: code_points r2
            else 65533%N :: code_points r
        | [] => [65533%N]
        end
      else if is_low_surrogate c then 65533%N :: code_points r
      else c :: code_points r
  end.

(** The UTF-8 bytes of one code point. *)
Definition utf8_bytes (cp : N) : list N :=
  (if cp <? 128 then [cp]
   else if cp <? 2048 then [192 + cp / 64; 128 + cp mod 64]
   else if cp <? 65536 then
     [224 + cp / 4096; 128 + (cp / 64) mod 64; 128 + cp mod 64]
   else
     [240 + cp / 262144; 128 + (cp / 4096) mod 64;
      128 + (cp / 64) mod 64; 128 + cp mod 64])%N.

Definition utf8_encode (s : jsstring) : list N :=
  concat (map utf8_bytes (code_points s)).

(** The payload of a line: what follows the field prefix in the trimmed
    line, trimmed again. *)
Definition payload_of (line : jsstring) (o : ISSEParserOptions) : jsstring :=
  trim (slice_from (trim line)
          (length (default (js "data") (dataField o) ++ js ":"))).

(** An OpenAI chunk whose only choice has the given delta and finish
    reason. *)
Definition openai_frame (delta : option IOpenAIDelta) (finish_reason : option jsstring)
  : RawEvent :=
  RawOpenAI
    {| chunk_choices :=
         Some [ {| choice_delta := delta; choice_finish_reason := finish_reason |} ] |}.

(** A frame whose [tool_calls[0]] carries [function.name]; [args0] is
    what it carries as [function.arguments], [more] the further entries
    of [tool_calls]. *)
Definition name_frame (index : option Z) (id : option jsstring) (name : jsstring)
  (args0 : option jsstring) (more : list IOpenAIToolCall) : RawEvent :=
  openai_frame
    (Some {| delta_content := None;
             delta_tool_calls :=
               Some ({| tc_index := index; tc_id := id;
                        tc_function :=
                          Some {| fn_name := Some name; fn_arguments := args0 |} |}
                     :: more) |})
    None.

(** A frame that carries only a [function.arguments] fragment. *)
Definition arguments_frame (index : option Z) (fragment : jsstring) : RawEvent :=
  openai_frame
    (Some {| delta_content := None;
             delta_tool_calls :=
               Some [ {| tc_index := index; tc_id := None;
                         tc_function :=
                           Some {| fn_name := None;
                                   fn_arguments := Some fragment |} |} ] |})
    None.

(** A frame with [finish_reason: 'tool_calls'] and an empty delta. *)
Definition finish_frame : RawEvent :=
  openai_frame (Some {| delta_content := None; delta_tool_calls := None |})
    (Some (js "tool_calls")).

(** Anthropic [content_block_start] of a [tool_use] block. *)
Definition tool_use_start (index : option Z) (id name : option jsstring) : RawEvent :=
  RawAnthropic
    {| a_type := js "content_block_start"; a_index := index;
       a_content_block :=
         Some {| cb_type := js "tool_use"; cb_id := id; cb_name := name |};
       a_delta := None; a_error := None |}.

(** Anthropic [content_block_stop]. *)
Definition block_stop (index : option Z) : RawEvent :=
  RawAnthropic
    {| a_type := js "content_block_stop"; a_index := index;
       a_content_block := None; a_delta := None; a_error := None |}.

(** Feeding frames to one adapter in order: what each call returned, and
    the state afterwards. *)
Fixpoint feed_frames {St : Type} (adapter : St -> RawEvent -> St * option IStreamEvent)
  (st : St) (frames : list RawEvent) : list (option IStreamEvent) * St :=
  match frames with
  | [] => ([], st)
  | frame :: rest =>
      let '(st1, e) := adapter st frame in
      let '(es, st2) := feed_frames adapter st1 rest in
      (e :: es, st2)
  end.

(** An adapter of the kind of closure [c] on its own: the transition
    function of that kind, from a fresh state, fed [frames] and nothing
    else.  The result is what it returns, frame by frame, and the map it
    ends with. *)
Definition alone (c : Closure) (frames : list RawEvent)
  : list (option IStreamEvent) * MapObject :=
  match c with
  | OpenAIClosure _ =>
      let '(es, st) := feed_frames openai_adapter createOpenAIAdapter frames in
      (es, ToolCallsMap st)
  | AnthropicClosure _ =>
      let '(es, st) := feed_frames anthropic_adapter createAnthropicAdapter frames in
      (es, ToolUseMap st)
  end.

(** Callbacks among which there is neither [onComplete] nor [onError]. *)
Definition quiet (cbs : list Callback) : Prop :=
  count_complete cbs = 0%nat /\ existsb is_OnError cbs = false.

(** A hook as mounted: no messages, nothing in flight. *)
Definition mounted : ChatHook :=
  {| messages := []; isStreaming := false; uploadedPdfs := [];
     accumulatedContentRef := []; contentSegmentsRef := [];
     currentTextSegmentRef := []; abortControllerRef := None;
     aborted := []; controllers := 0 |}.

(** Identifiers and times for an example turn. *)
Definition example_env : TurnEnv :=
  {| userMessageId := js "m1"; userTimestamp := 1000;
     assistantMessageId := js "m2"; assistantTimestamp := 1001 |}.

(* ===================================================================== *)
(** ** Stateless text adapters ([src/adapters/openai.ts],
       [src/adapters/anthropic.ts]) *)
(* ===================================================================== *)

(** [chunk.choices?.[0]?.delta?.content] *)
Definition openAITextAdapter (rawEvent : RawEvent) : option IStreamEvent :=
  match rawEvent with
  | RawOpenAI chunk =>
      let content :=
        ((chunk_choices chunk ≫= head) ≫= choice_delta) ≫= delta_content in
      if truthy_opt content then Some (llm_token_event (default [] content))
      else None
  | _ => None
  end.

Definition anthropicTextAdapter (rawEvent : RawEvent) : option IStreamEvent :=
  match rawEvent with
  | RawAnthropic event =>
      let text := a_delta event ≫= d_text in
      if str_eqb (a_type event) (js "content_block_delta") && truthy_opt text
      then Some (llm_token_event (default [] text))
      else if str_eqb (a_type event) (js "error")
      then Some (error_event (default (js "Unknown error")
                                      (a_error event ≫= err_message)))
      else None
  | _ => None
  end.

(** Anthropic [content_block_delta] with an [input_json_delta]. *)
Definition input_json_delta (index : option Z) (partial_json : jsstring) : RawEvent :=
  RawAnthropic
    {| a_type := js "content_block_delta"; a_index := index;
       a_content_block := None;
       a_delta := Some {| d_type := Some (js "input_json_delta"); d_text := None;
                          d_partial_json := Some partial_json |};
       a_error := None |}.

(* ===================================================================== *)
(** ** Further operations of [useChatMessages] *)
(* ===================================================================== *)

Definition finalizeAssistantMessage (h : ChatHook) : ChatHook :=
  if truthy_str (trim (currentTextSegmentRef h)) then
    let segments := put_text_segment (contentSegmentsRef h) (currentTextSegmentRef h) in
    {| messages := update_last_assistant (with_segments segments) (messages h);
       isStreaming := isStreaming h;
       uploadedPdfs := uploadedPdfs h;
       accumulatedContentRef := accumulatedContentRef h;
       contentSegmentsRef := segments;
       currentTextSegmentRef := currentTextSegmentRef h;
       abortControllerRef := abortControllerRef h;
       aborted := aborted h;
       controllers := controllers h |}
  else h.

(** The [onComplete] callback [sendMessage] hands to the transport. *)
Definition turn_onComplete (h : ChatHook) : ChatHook :=
  let h1 := finalizeAssistantMessage h in
  {| messages := messages h1;
     isStreaming := false;
     uploadedPdfs := uploadedPdfs h1;
     accumulatedContentRef := accumulatedContentRef h1;
     contentSegmentsRef := contentSegmentsRef h1;
     currentTextSegmentRef := currentTextSegmentRef h1;
     abortControllerRef := None;
     aborted := aborted h1;
     controllers := controllers h1 |}.

(** The [onError] callback [sendMessage] hands to the transport. *)
Definition turn_onError (h : ChatHook) : ChatHook :=
  {| messages := messages h;
     isStreaming := false;
     uploadedPdfs := uploadedPdfs h;
     accumulatedContentRef := accumulatedContentRef h;
     contentSegmentsRef := contentSegmentsRef h;
     currentTextSegmentRef := currentTextSegmentRef h;
     abortControllerRef := None;
     aborted := aborted h;
     controllers := controllers h |}.

Definition set_uploadedPdfs (pdfs : list IPdfFile) (h : ChatHook) : ChatHook :=
  {| messages := messages h;
     isStreaming := isStreaming h;
     uploadedPdfs := pdfs;
     accumulatedContentRef := accumulatedContentRef h;
     contentSegmentsRef := contentSegmentsRef h;
     currentTextSegmentRef := currentTextSegmentRef h;
     abortControllerRef := abortControllerRef h;
     aborted := aborted h;
     controllers := controllers h |}.

(** [setUploadedPdfs((prev) => [...prev, pdf])] *)
Definition addPdf (pdf : IPdfFile) (h : ChatHook) : ChatHook :=
  set_uploadedPdfs (uploadedPdfs h ++ [pdf]) h.

(** [setUploadedPdfs((prev) => prev.filter((pdf) => pdf.uuid !== uuid))] *)
Definition removePdf (uuid : jsstring) (h : ChatHook) : ChatHook :=
  set_uploadedPdfs
    (List.filter (fun pdf => negb (str_eqb (pdf_uuid pdf) uuid)) (uploadedPdfs h)) h.

Definition clearChat (h : ChatHook) : ChatHook :=
  {| messages := [];
     isStreaming := isStreaming h;
     uploadedPdfs := [];
     accumulatedContentRef := [];
     contentSegmentsRef := [];
     currentTextSegmentRef := [];
     abortControllerRef := abortControllerRef h;
     aborted := aborted h;
     controllers := controllers h |}.

(** [appendMessage(message)]: [generated] and [now] are what
    [generateId()] and [new Date()] return; a [None] in [id] or
    [timestamp] is a key the caller left out. *)
Definition appendMessage (maxMessages : Z) (generated : jsstring) (now : Z)
  (id : option jsstring) (timestamp : option Z) (role : MessageRole)
  (content : jsstring) (attachedFiles : option (list IPdfFile)) (h : ChatHook)
  : ChatHook :=
  let fullMessage :=
    {| msg_id := default generated id; msg_role := role; msg_content := content;
       msg_attachedFiles := attachedFiles; msg_contentSegments := None;
       msg_timestamp := default now timestamp |} in
  {| messages := trimMessages maxMessages (messages h ++ [fullMessage]);
     isStreaming := isStreaming h;
     uploadedPdfs := uploadedPdfs h;
     accumulatedContentRef := accumulatedContentRef h;
     contentSegmentsRef := contentSegmentsRef h;
     currentTextSegmentRef := currentTextSegmentRef h;
     abortControllerRef := abortControllerRef h;
     aborted := aborted h;
     controllers := controllers h |}.

(** The text the token events of a list add to a message, in order. *)
Definition token_text (events : list IStreamEvent) : jsstring :=
  concat (map (fun e => if is_token e then default [] (ev_content e) else []) events).

(* ===================================================================== *)
(** ** Provider helpers ([src/utils/providerHelpers.ts]) *)
(* ===================================================================== *)

(** [a || b] on strings. *)
Definition or_str (a b : jsstring) : jsstring := if truthy_str a then a else b.

(** The [model] field of the request body built by [openAIStreamConfig]:
    [model || params.modelName || 'gpt-4'], where [model] is the option,
    ['gpt-4'] when left out. *)
Definition openAI_request_model (options_model : option jsstring)
  (modelName : jsstring) : jsstring :=
  let model := default (js "gpt-4") options_model in
  or_str (or_str model modelName) (js "gpt-4").

(** The [messages] field of that body. *)
Definition openAI_request_messages (history : list IMessage) (userInput : jsstring)
  : list (MessageRole * jsstring) :=
  map (fun m => (msg_role m, msg_content m)) history ++ [(user, userInput)].

(** An adapter without state for backends that send plain text: a string
    becomes a token, anything else is passed over. *)
Definition plain_text_adapter (st : unit) (data : JValue) : unit * option IStreamEvent :=
  (st, match data with JString s => Some (llm_token_event s) | _ => None end).

(** What is left of an adapter's result when only text tokens count. *)
Definition only_tokens (o : option IStreamEvent) : option IStreamEvent :=
  match o with
  | Some e => match ev_type e with llm_token => Some e | _ => None end
  | None => None
  end.

Definition has_type (t : EventType) (o : option IStreamEvent) : bool :=
  match o, t with
  | Some e, tool_start => match ev_type e with tool_start => true | _ => false end
  | Some e, tool_end => match ev_type e with tool_end => true | _ => false end
  | Some e, llm_token => match ev_type e with llm_token => true | _ => false end
  | Some e, tool_content => match ev_type e with tool_content => true | _ => false end
  | Some e, error => match ev_type e with error => true | _ => false end
  | None, _ => false
  end.

(** How many of the results of an adapter are events of the given type. *)
Definition count_type (t : EventType) (outputs : list (option IStreamEvent)) : nat :=
  length (List.filter (has_type t) outputs).

(** The assistant message [a] once the text [text] has been streamed into
    it: untouched while no text has come, otherwise holding the text as
    its content and as its only segment. *)
Definition streamed (a : IMessage) (text : jsstring) : IMessage :=
  match text with
  | [] => a
  | _ :: _ => with_segments [TextSegment text] (with_content text a)
  end.

(* ===================================================================== *)
(** * Properties *)
(* ===================================================================== *)

(** ** Line splitter *)

Section LineSplitter.
Implicit Types (s t : jsstring) (lines : list jsstring) (p : SSEParser).

Lemma split_lf_no_lf t : LF ∉ t -> split_lf t = [t].
Proof.
  induction t as [|c t IH]; intros Hn; [done|].
  apply not_elem_of_cons in Hn as [Hc Ht]. simpl.
  destruct (N.eqb_spec c LF) as [->|_]; [done|].
  by rewrite IH.
Qed.

Lemma split_lf_line l s : LF ∉ l -> split_lf (l ++ LF :: s) = l :: split_lf s.
Proof.
  induction l as [|c l IH]; intros Hn; simpl.
  - done.
  - apply not_elem_of_cons in Hn as [Hc Hl].
    destruct (N.eqb_spec c LF) as [->|_]; [done|].
    by rewrite IH.
Qed.

(** Splitting a text built from complete lines and a tail gives them back. *)
Lemma split_lf_join lines t :
  Forall (fun l => LF ∉ l) lines -> LF ∉ t ->
  split_lf (join_lf lines ++ t) = lines ++ [t].
Proof.
  intros Hl Ht. induction Hl as [|l lines Hn _ IH]; simpl.
  - by apply split_lf_no_lf.
  - unfold join_lf in *. simpl. rewrite <- !app_assoc. simpl.
    by rewrite split_lf_line, IH.
Qed.

(** Every text is complete lines followed by a tail without line feed,
    and [split] finds exactly those. *)
Lemma split_lf_decompose s :
  exists lines t,
    split_lf s = lines ++ [t] /\ s = join_lf lines ++ t /\
    Forall (fun l => LF ∉ l) lines /\ LF ∉ t.
Proof.
  induction s as [|c s (lines & t & Hs & Hj & Hl & Ht)].
  - exists [], []. repeat split; [constructor | apply not_elem_of_nil].
  - simpl. destruct (N.eqb_spec c LF) as [->|Hc].
    + exists ([] :: lines), t. rewrite Hs. repeat split; auto.
      * by rewrite Hj at 1.
      * constructor; [apply not_elem_of_nil | done].
    + rewrite Hs. destruct lines as [|l lines]; simpl.
      * exists [], (c :: t). simpl in *. subst s.
        repeat split; [constructor|]. by apply not_elem_of_cons.
      * exists ((c :: l) :: lines), t.
        apply Forall_cons in Hl as [Hl1 Hl2].
        repeat split; auto.
        -- by rewrite Hj at 1.
        -- constructor; [by apply not_elem_of_cons | done].
Qed.

Lemma pop_snoc {A} (l : list A) (x : A) : pop (l ++ [x]) = (l, Some x).
Proof. unfold pop. by rewrite removelast_last, last_snoc. Qed.

Lemma feed_lines_join p chunk lines t :
  Forall (fun l => LF ∉ l) lines -> LF ∉ t ->
  buffer p ++ chunk = join_lf lines ++ t ->
  feed_lines p chunk = (lines, {| buffer := t |}).
Proof.
  intros Hl Ht Heq. unfold feed_lines.
  by rewrite Heq, split_lf_join, pop_snoc.
Qed.

Lemma feed_lines_decompose p chunk :
  exists lines t,
    feed_lines p chunk = (lines, {| buffer := t |}) /\
    buffer p ++ chunk = join_lf lines ++ t /\
    Forall (fun l => LF ∉ l) lines /\ LF ∉ t.
Proof.
  destruct (split_lf_decompose (buffer p ++ chunk)) as (lines & t & Hs & Hj & Hl & Ht).
  exists lines, t. repeat split; auto. by apply feed_lines_join.
Qed.

Lemma join_lf_app lines1 lines2 :
  join_lf (lines1 ++ lines2) = join_lf lines1 ++ join_lf lines2.
Proof. unfold join_lf. by rewrite map_app, concat_app. Qed.

(** Two feeds process the lines of one feed of the concatenation. *)
Lemma feed_lines_app p a b :
  feed_lines p (a ++ b) =
  let '(lines1, p1) := feed_lines p a in
  let '(lines2, p2) := feed_lines p1 b in
  (lines1 ++ lines2, p2).
Proof.
  destruct (feed_lines_decompose p a) as (l1 & t1 & -> & Hj1 & Hl1 & Ht1).
  destruct (feed_lines_decompose {| buffer := t1 |} b)
    as (l2 & t2 & -> & Hj2 & Hl2 & Ht2).
  simpl in Hj2. apply feed_lines_join; [by apply Forall_app | done |].
  rewrite app_assoc, Hj1, <- app_assoc, Hj2, join_lf_app.
  by rewrite <- app_assoc.
Qed.

Lemma feed_lines_nil p :
  LF ∉ buffer p -> feed_lines p [] = ([], p).
Proof.
  intros Hn. destruct p as [b]. simpl in *.
  apply feed_lines_join; [constructor | done | by rewrite app_nil_r].
Qed.

(** After any feed the buffer holds no line feed. *)
Lemma feed_lines_buffer p chunk : LF ∉ buffer (feed_lines p chunk).2.
Proof. by destruct (feed_lines_decompose p chunk) as (l & t & -> & _ & _ & Ht). Qed.

Lemma feed_lines_all_concat p chunks :
  LF ∉ buffer p ->
  feed_lines_all p chunks = feed_lines p (concat chunks).
Proof.
  revert p. induction chunks as [|c chunks IH]; intros p Hp;
    cbn [feed_lines_all concat].
  - by rewrite feed_lines_nil.
  - rewrite feed_lines_app.
    pose proof (feed_lines_buffer p c) as Hb.
    destruct (feed_lines p c) as [l1 p1]. simpl in Hb.
    rewrite IH by done. by destruct (feed_lines p1 (concat chunks)).
Qed.

Lemma emit_lines_app o lines1 lines2 :
  emit_lines o (lines1 ++ lines2) = emit_lines o lines1 ++ emit_lines o lines2.
Proof. unfold emit_lines. apply omap_app. Qed.

Lemma feed_all_lines o p chunks :
  feed_all o p chunks =
  (emit_lines o (feed_lines_all p chunks).1, (feed_lines_all p chunks).2).
Proof.
  revert p. induction chunks as [|c chunks IH]; intros p;
    cbn [feed_all feed_lines_all]; [done|].
  unfold feed. destruct (feed_lines p c) as [l1 p1].
  rewrite IH. destruct (feed_lines_all p1 chunks) as [l2 p2]. simpl.
  by rewrite emit_lines_app.
Qed.

Lemma feed_all_two o p a b : feed_all o p [a; b] = feed o p (a ++ b).
Proof.
  cbn [feed_all]. unfold feed. rewrite feed_lines_app.
  destruct (feed_lines p a) as [l1 p1].
  pose proof (feed_lines_buffer p1 b) as Hb.
  destruct (feed_lines p1 b) as [l2 p2].
  by rewrite emit_lines_app, app_nil_r.
Qed.

(** C1. Feeding a text in chunks, however it is cut, hands the same
    values to [onData] in the same order and leaves the same buffer as
    feeding it in one piece; in any parser state [feed (a ++ b)] is
    [feed a] followed by [feed b].  What [feed] itself returns is pinned
    down: the text is a sequence of complete lines, each followed by its
    line feed, and then the buffer [feed] leaves; neither the lines nor
    the buffer hold a line feed, so the buffer is what follows the last
    line feed of the text; and the values handed to [onData] are the
    non-null results of [parseSSELine] on these lines, in order. *)
Theorem feed_chunking (o : option ISSEParserOptions) (chunks : list jsstring) :
  feed_all o createSSEParser chunks = feed o createSSEParser (concat chunks) /\
  (forall p a b, feed_all o p [a; b] = feed o p (a ++ b)) /\
  exists lines : list jsstring,
    concat chunks = join_lf lines ++ buffer (feed_all o createSSEParser chunks).2 /\
    Forall (fun l => LF ∉ l) lines /\
    (LF ∉ buffer (feed_all o createSSEParser chunks).2) /\
    (feed_all o createSSEParser chunks).1 =
      omap (fun line =>
              let data := parseSSELine line (default no_options o) in
              if is_null data then None else Some data) lines.
Proof.
  assert (Hfresh : LF ∉ buffer createSSEParser) by apply not_elem_of_nil.
  split.
  { rewrite feed_all_lines, feed_lines_all_concat by done.
    unfold feed. by destruct (feed_lines createSSEParser (concat chunks)). }
  split; [apply feed_all_two|].
  rewrite feed_all_lines, feed_lines_all_concat by done.
  destruct (feed_lines_decompose createSSEParser (concat chunks))
    as (l & t & -> & Hj & Hl & Ht).
  exists l. simpl in *. auto.
Qed.
End LineSplitter.

(** ** [JSON.parse]: the parser never runs out of fuel *)

Section JsonParser.
Implicit Types (s rest : jsstring) (v : JValue).

Lemma skip_ws_le s : (length (skip_ws s) <= length s)%nat.
Proof.
induction s as [|c s IH]; simpl; [done|].
destruct (is_json_ws c); simpl; lia.
Qed.

Lemma skip_ws_cons_le s c r :
  skip_ws s = c :: r -> (S (length r) <= length s)%nat.
Proof. intros H. pose proof (skip_ws_le s) as Hle. rewrite H in Hle. done. Qed.

Lemma parse_string_body_le s str rest :
  parse_string_body s = Some (str, rest) -> (length rest <= length s)%nat.
Proof.
remember (length s) as n eqn:Hn. revert s str rest Hn.
induction n as [n IH] using lt_wf_ind. intros s str rest -> Hp.
destruct s as [|c r]; [done|]. cbn [parse_string_body] in Hp.
destruct (c =? 34)%N; [injection Hp as _ <-; simpl; lia|].
destruct (c =? 92)%N.
- destruct r as [|e r1]; [done|].
  destruct (e =? 117)%N.
  + destruct r1 as [|h1 [|h2 [|h3 [|h4 r2]]]]; try done.
    destruct (hex4 h1 h2 h3 h4); [|done]. simpl in Hp.
    destruct (parse_string_body r2) as [[str' rest']|] eqn:Hr; [|done].
    injection Hp as _ <-.
    assert (length rest' <= length r2)%nat by (eapply (IH (length r2)); eauto; simpl; lia).
    simpl. lia.
  + destruct (simple_escape e); [|done]. simpl in Hp.
    destruct (parse_string_body r1) as [[str' rest']|] eqn:Hr; [|done].
    injection Hp as _ <-.
    assert (length rest' <= length r1)%nat by (eapply (IH (length r1)); eauto; simpl; lia).
    simpl. lia.
- destruct (c <? 32)%N; [done|].
  destruct (parse_string_body r) as [[str' rest']|] eqn:Hr; [|done].
  injection Hp as _ <-.
  assert (length rest' <= length r)%nat by (eapply (IH (length r)); eauto; simpl; lia).
  simpl. lia.
Qed.

Lemma take_digits_le s : (length (take_digits s).2 <= length s)%nat.
Proof.
induction s as [|c s IH]; simpl; [done|].
destruct (is_digit c); [|simpl; lia].
destruct (take_digits s). simpl in *. lia.
Qed.

Lemma parse_digits1_le s ds rest :
  parse_digits1 s = Some (ds, rest) -> (length rest <= length s)%nat.
Proof.
unfold parse_digits1. pose proof (take_digits_le s) as Hle.
destruct (take_digits s) as [[|d ds'] rest']; [done|].
intros [= _ <-]. done.
Qed.

Lemma parse_sign_le s : (length (parse_sign s).2 <= length s)%nat.
Proof. destruct s as [|c r]; simpl; [done|]. destruct (c =? 45)%N; simpl; lia. Qed.

Lemma parse_int_le s lex rest :
  parse_int s = Some (lex, rest) -> (length rest <= length s)%nat.
Proof.
destruct s as [|d r]; [done|]. unfold parse_int.
destruct (d =? 48)%N; [intros [= _ <-]; simpl; lia | apply parse_digits1_le].
Qed.

Lemma parse_frac_le s lex rest :
  parse_frac s = Some (lex, rest) -> (length rest <= length s)%nat.
Proof.
destruct s as [|c r]; [by intros [= _ <-]|]. unfold parse_frac.
destruct (c =? 46)%N; [|by intros [= _ <-]].
destruct (parse_digits1 r) as [[ds rest']|] eqn:Hd; [|done].
intros [= _ <-]. apply parse_digits1_le in Hd. simpl. lia.
Qed.

Lemma parse_exp_sign_le s : (length (parse_exp_sign s).2 <= length s)%nat.
Proof.
destruct s as [|g r]; simpl; [done|].
destruct ((g =? 43) || (g =? 45))%N; simpl; lia.
Qed.

Lemma parse_exp_le s lex rest :
  parse_exp s = Some (lex, rest) -> (length rest <= length s)%nat.
Proof.
destruct s as [|c r]; [by intros [= _ <-]|]. unfold parse_exp.
destruct ((c =? 101) || (c =? 69))%N; [|by intros [= _ <-]].
pose proof (parse_exp_sign_le r) as Hs.
destruct (parse_exp_sign r) as [esign r1]. simpl in Hs.
destruct (parse_digits1 r1) as [[ds rest']|] eqn:Hd; [|done].
intros [= _ <-]. apply parse_digits1_le in Hd. simpl. lia.
Qed.

Lemma parse_number_le s lex rest :
  parse_number s = Some (lex, rest) -> (length rest <= length s)%nat.
Proof.
unfold parse_number. pose proof (parse_sign_le s) as H0.
destruct (parse_sign s) as [sign s1]. simpl in H0.
destruct (parse_int s1) as [[int s2]|] eqn:H1; simpl; [|done].
destruct (parse_frac s2) as [[frac s3]|] eqn:H2; simpl; [|done].
destruct (parse_exp s3) as [[exp s4]|] eqn:H3; simpl; [|done].
intros [= _ <-].
apply parse_int_le in H1. apply parse_frac_le in H2. apply parse_exp_le in H3. lia.
Qed.

(** A parse consumes input: what is left is not longer than what was
    given. *)
Lemma parse_rest_le fuel :
  (forall s v rest, parse_value fuel s = Some (v, rest) ->
                    (length rest <= length s)%nat) /\
  (forall s acc v rest, parse_elements fuel s acc = Some (v, rest) ->
                        (length rest <= length s)%nat) /\
  (forall s acc v rest, parse_members fuel s acc = Some (v, rest) ->
                        (length rest <= length s)%nat).
Proof.
induction fuel as [|f (IHv & IHe & IHm)]; [done|].
split; [|split].
- intros s v rest Hp. cbn [parse_value] in Hp.
  destruct (skip_ws s) as [|c r] eqn:Hs; [done|].
  apply skip_ws_cons_le in Hs.
  destruct (c =? 123)%N.
  { destruct (skip_ws r) as [|c' r'] eqn:Hr; [done|].
    pose proof (skip_ws_le r) as Hle. rewrite Hr in Hle. simpl in Hle.
    destruct (c' =? 125)%N; [injection Hp as _ <-; lia|].
    apply IHm in Hp. simpl in Hp. lia. }
  destruct (c =? 91)%N.
  { destruct (skip_ws r) as [|c' r'] eqn:Hr; [done|].
    pose proof (skip_ws_le r) as Hle. rewrite Hr in Hle. simpl in Hle.
    destruct (c' =? 93)%N; [injection Hp as _ <-; lia|].
    apply IHe in Hp. simpl in Hp. lia. }
  destruct (c =? 34)%N.
  { destruct (parse_string_body r) as [[str rest']|] eqn:Hb; [|done].
    injection Hp as _ <-. apply parse_string_body_le in Hb. lia. }
  destruct (startsWith (c :: r) (js "true")).
  { injection Hp as _ <-. rewrite length_drop. simpl. lia. }
  destruct (startsWith (c :: r) (js "false")).
  { injection Hp as _ <-. rewrite length_drop. simpl. lia. }
  destruct (startsWith (c :: r) (js "null")).
  { injection Hp as _ <-. rewrite length_drop. simpl. lia. }
  destruct (parse_number (c :: r)) as [[lex rest']|] eqn:Hn; [|done].
  injection Hp as _ <-. apply parse_number_le in Hn. simpl in Hn. lia.
- intros s acc v rest Hp. cbn [parse_elements] in Hp.
  destruct (parse_value f s) as [[v1 rest1]|] eqn:Hv; [|done].
  apply IHv in Hv. simpl in Hp.
  destruct (skip_ws rest1) as [|c r] eqn:Hs; [done|].
  apply skip_ws_cons_le in Hs.
  destruct (c =? 44)%N; [apply IHe in Hp; lia|].
  destruct (c =? 93)%N; [|done]. injection Hp as _ <-. lia.
- intros s acc v rest Hp. cbn [parse_members] in Hp.
  destruct (skip_ws s) as [|q r] eqn:Hs; [done|].
  apply skip_ws_cons_le in Hs.
  destruct (q =? 34)%N; [|done].
  destruct (parse_string_body r) as [[key rest0]|] eqn:Hb; [|done].
  apply parse_string_body_le in Hb. simpl in Hp.
  destruct (skip_ws rest0) as [|c r1] eqn:Hs0; [done|].
  apply skip_ws_cons_le in Hs0.
  destruct (c =? 58)%N; [|done].
  destruct (parse_value f r1) as [[v1 rest1]|] eqn:Hv; [|done].
  apply IHv in Hv. simpl in Hp.
  destruct (skip_ws rest1) as [|c2 r2] eqn:Hs1; [done|].
  apply skip_ws_cons_le in Hs1.
  destruct (c2 =? 44)%N; [apply IHm in Hp; lia|].
  destruct (c2 =? 125)%N; [|done]. injection Hp as _ <-. lia.
Qed.

(** Fuel beyond twice the length of the text changes nothing: the parser
    never stops for lack of it. *)
Lemma parse_fuel_irrelevant fuel :
  (forall s fuel', (2 * length s < fuel)%nat -> (2 * length s < fuel')%nat ->
     parse_value fuel s = parse_value fuel' s) /\
  (forall s acc fuel', (2 * length s + 1 < fuel)%nat -> (2 * length s + 1 < fuel')%nat ->
     parse_elements fuel s acc = parse_elements fuel' s acc) /\
  (forall s acc fuel', (2 * length s + 1 < fuel)%nat -> (2 * length s + 1 < fuel')%nat ->
     parse_members fuel s acc = parse_members fuel' s acc).
Proof.
induction fuel as [|f (IHv & IHe & IHm)]; [repeat split; intros; lia|].
split; [|split].
- intros s [|f'] Hf Hf'; [lia|]. cbn [parse_value].
  destruct (skip_ws s) as [|c r] eqn:Hs; [done|].
  apply skip_ws_cons_le in Hs.
  destruct (c =? 123)%N.
  { destruct (skip_ws r) as [|c' r'] eqn:Hr; [done|].
    pose proof (skip_ws_le r) as Hle. rewrite Hr in Hle.
    destruct (c' =? 125)%N; [done|]. apply IHm; lia. }
  destruct (c =? 91)%N; [|done].
  destruct (skip_ws r) as [|c' r'] eqn:Hr; [done|].
  pose proof (skip_ws_le r) as Hle. rewrite Hr in Hle.
  destruct (c' =? 93)%N; [done|]. apply IHe; lia.
- intros s acc [|f'] Hf Hf'; [lia|]. cbn [parse_elements].
  rewrite (IHv s f') by lia.
  destruct (parse_value f' s) as [[v rest]|] eqn:Hv; simpl; [|done].
  apply (parse_rest_le f') in Hv.
  destruct (skip_ws rest) as [|c r] eqn:Hs; [done|].
  apply skip_ws_cons_le in Hs.
  destruct (c =? 44)%N; [|done]. apply IHe; lia.
- intros s acc [|f'] Hf Hf'; [lia|]. cbn [parse_members].
  destruct (skip_ws s) as [|q r] eqn:Hs; [done|].
  apply skip_ws_cons_le in Hs.
  destruct (q =? 34)%N; [|done].
  destruct (parse_string_body r) as [[key rest0]|] eqn:Hb; simpl; [|done].
  apply parse_string_body_le in Hb.
  destruct (skip_ws rest0) as [|c r1] eqn:Hs0; [done|].
  apply skip_ws_cons_le in Hs0.
  destruct (c =? 58)%N; [|done].
  rewrite (IHv r1 f') by lia.
  destruct (parse_value f' r1) as [[v rest1]|] eqn:Hv; simpl; [|done].
  apply (parse_rest_le f') in Hv.
  destruct (skip_ws rest1) as [|c2 r2] eqn:Hs1; [done|].
  apply skip_ws_cons_le in Hs1.
  destruct (c2 =? 44)%N; [|done]. apply IHm; lia.
Qed.

(** [JSON_parse] gives the parser enough fuel: any larger amount yields
    the same value, or the same failure. *)
Lemma JSON_parse_fuel text fuel :
  (2 * length text < fuel)%nat ->
  JSON_parse text =
    ('(v, rest) ← parse_value fuel text;
     match skip_ws rest with [] => Some v | _ :: _ => None end).
Proof.
intros Hf. unfold JSON_parse.
by rewrite (proj1 (parse_fuel_irrelevant (2 * length text + 2)) text fuel) by lia.
Qed.
End JsonParser.

(** ** Byte size *)

Section Utf8.
Implicit Types (s : jsstring).

Lemma utf8_bytes_length cp :
  length (utf8_bytes cp) =
  if (cp <? 128)%N then 1%nat else if (cp <? 2048)%N then 2%nat
  else if (cp <? 65536)%N then 3%nat else 4%nat.
Proof. unfold utf8_bytes. by repeat destruct (_ <? _)%N. Qed.

Lemma utf8_encode_cons_length cp (cps : list N) :
  length (concat (map utf8_bytes (cp :: cps)))
  = (length (utf8_bytes cp) + length (concat (map utf8_bytes cps)))%nat.
Proof. simpl. by rewrite length_app. Qed.

(** X4.  The size that [checkJsonSize] compares with the limit is the
    number of bytes of the UTF-8 encoding of the string, for a string of
    16-bit code units. *)
Lemma blob_size_utf8 s :
  Forall (fun c => (c < 65536)%N) s ->
  blob_size s = Z.of_nat (length (utf8_encode s)).
Proof.
remember (length s) as n eqn:Hn. revert s Hn.
induction n as [n IH] using lt_wf_ind. intros s -> Hall.
destruct s as [|c r]; [done|].
apply Forall_cons in Hall as [Hc Hr].
assert (IHr : blob_size r = Z.of_nat (length (utf8_encode r))).
{ apply (IH (length r)); [simpl; lia | done | done]. }
unfold utf8_encode in *. cbn [blob_size code_points].
unfold is_high_surrogate, is_low_surrogate.
destruct (N.ltb_spec c 128) as [H1|H1].
{ destruct (N.leb_spec 55296 c); [lia|]. destruct (N.leb_spec 56320 c); [lia|].
  cbn [andb]. rewrite utf8_encode_cons_length, utf8_bytes_length.
  destruct (N.ltb_spec c 128); lia. }
destruct (N.ltb_spec c 2048) as [H2|H2].
{ destruct (N.leb_spec 55296 c); [lia|]. destruct (N.leb_spec 56320 c); [lia|].
  cbn [andb]. rewrite utf8_encode_cons_length, utf8_bytes_length.
  destruct (N.ltb_spec c 128); [lia|]. destruct (N.ltb_spec c 2048); lia. }
destruct (N.leb_spec 55296 c) as [H3|H3], (N.leb_spec c 56319) as [H4|H4]; cbn [andb].
- destruct r as [|c2 r2]; [done|].
  apply Forall_cons in Hr as [Hc2 Hr2].
  destruct (N.leb_spec 56320 c2) as [H5|H5], (N.leb_spec c2 57343) as [H6|H6];
    cbn [andb]; rewrite utf8_encode_cons_length, utf8_bytes_length.
  + assert (IHr2 : blob_size r2 = Z.of_nat (length (concat (map utf8_bytes (code_points r2))))).
    { apply (IH (length r2)); [simpl; lia | done | done]. }
    destruct (N.ltb_spec (65536 + (c - 55296) * 1024 + (c2 - 56320)) 128); [lia|].
    destruct (N.ltb_spec (65536 + (c - 55296) * 1024 + (c2 - 56320)) 2048); [lia|].
    destruct (N.ltb_spec (65536 + (c - 55296) * 1024 + (c2 - 56320)) 65536); lia.
  + change (65533 <? 128)%N with false. change (65533 <? 2048)%N with false.
    change (65533 <? 65536)%N with true. cbv iota. lia.
  + change (65533 <? 128)%N with false. change (65533 <? 2048)%N with false.
    change (65533 <? 65536)%N with true. cbv iota. lia.
  + lia.
- destruct (N.leb_spec 56320 c) as [H5|H5], (N.leb_spec c 57343) as [H6|H6];
    cbn [andb]; rewrite utf8_encode_cons_length, utf8_bytes_length.
  + change (65533 <? 128)%N with false. change (65533 <? 2048)%N with false.
    change (65533 <? 65536)%N with true. cbv iota. lia.
  + destruct (N.ltb_spec c 128); [lia|]. destruct (N.ltb_spec c 2048); [lia|].
    destruct (N.ltb_spec c 65536); lia.
  + lia.
  + lia.
- destruct (N.leb_spec 56320 c) as [H5|H5]; [lia|]. cbn [andb].
  rewrite utf8_encode_cons_length, utf8_bytes_length.
  destruct (N.ltb_spec c 128); [lia|]. destruct (N.ltb_spec c 2048); [lia|].
  destruct (N.ltb_spec c 65536); lia.
- lia.
Qed.
End Utf8.

(** ** Guarded decoder *)

Section GuardedDecoder.

(** Induction over decoded values, through the lists they nest in. *)
Lemma JValue_nested_ind (P : JValue -> Prop) :
  P JNull -> (forall b, P (JBool b)) -> (forall n, P (JNumber n)) ->
  (forall s, P (JString s)) ->
  (forall items, Forall P items -> P (JArray items)) ->
  (forall props, Forall (fun kv => P kv.2) props -> P (JObject props)) ->
  forall v, P v.
Proof.
  intros Hnull Hbool Hnum Hstr Harr Hobj. fix IH 1.
  intros [ | b | n | s | items | props];
    [apply Hnull | apply Hbool | apply Hnum | apply Hstr | | ].
  - apply Harr. induction items as [|i items IHi]; constructor;
      [apply IH | apply IHi].
  - apply Hobj. induction props as [|[k i] props IHp]; constructor;
      [apply IH | apply IHp].
Qed.

Lemma max_list_le (l : list Z) (b : Z) :
  0 <= b -> (max_list l <= b <-> Forall (fun x => x <= b) l).
Proof.
  intros Hb. induction l as [|x l IH]; simpl.
  - split; [constructor | done].
  - rewrite Forall_cons, <- IH. lia.
Qed.

Lemma max_list_nonneg (l : list Z) : 0 <= max_list l.
Proof. induction l; simpl; lia. Qed.

Lemma enclosing_nonneg v : 0 <= enclosing v.
Proof. destruct v; simpl; try lia; apply max_list_nonneg. Qed.

(** The recursive check succeeds exactly when no value of the tree,
    started at [currentDepth], sits deeper than [maxDepth]. *)
Lemma checkJsonDepth_spec v maxDepth currentDepth :
  checkJsonDepth v maxDepth currentDepth = true <->
  currentDepth + enclosing v <= maxDepth.
Proof.
  revert currentDepth.
  induction v as [ | b | n | s | items IH | props IH] using JValue_nested_ind;
    intros d; simpl;
    destruct (Z.gtb_spec d maxDepth) as [Hgt|Hle];
    try (split; [done | lia]); try (split; [lia | done]).
  - split; [done|]. pose proof (max_list_nonneg (map (fun i => 1 + enclosing i) items)). lia.
  - rewrite forallb_forall, <- List.Forall_forall.
    assert (Hb : 0 <= maxDepth - d) by lia.
    transitivity (max_list (map (fun i => 1 + enclosing i) items) <= maxDepth - d);
      [|lia].
    rewrite (max_list_le _ _ Hb), Forall_map.
    rewrite !Forall_forall in *.
    split; intros H i Hi; specialize (H i Hi); specialize (IH i Hi (d + 1));
      simpl in *; [apply IH in H | apply IH]; lia.
  - split; [done|].
    pose proof (max_list_nonneg (map (fun '(_, i) => 1 + enclosing i) props)). lia.
  - rewrite forallb_forall, <- List.Forall_forall.
    assert (Hb : 0 <= maxDepth - d) by lia.
    transitivity (max_list (map (fun '(_, i) => 1 + enclosing i) props) <= maxDepth - d);
      [|lia].
    rewrite (max_list_le _ _ Hb), Forall_map.
    rewrite !Forall_forall in *.
    split; intros H [k i] Hi; specialize (H (k, i) Hi);
      specialize (IH (k, i) Hi (d + 1));
      simpl in *; [apply IH in H | apply IH]; lia.
Qed.

Lemma max_list_ub (l : list Z) : Forall (fun x => x <= max_list l) l.
Proof. apply max_list_le; [apply max_list_nonneg | lia]. Qed.

Lemma max_list_mono {A} (f g : A -> Z) (l : list A) :
  Forall (fun a => f a <= g a) l -> max_list (map f l) <= max_list (map g l).
Proof. induction 1; simpl; lia. Qed.

Lemma max_list_succ {A} (f : A -> Z) (l : list A) :
  max_list (map (fun a => 1 + f a) l) <= 1 + max_list (map f l).
Proof.
  induction l as [|a l IH]; simpl; [lia|].
  pose proof (max_list_nonneg (map f l)). lia.
Qed.

(** The two measures differ by at most one: an innermost empty array or
    object is a level that holds no value. *)
Lemma enclosing_levels v : enclosing v <= levels v <= enclosing v + 1.
Proof.
  induction v as [ | b | n | s | items IH | props IH] using JValue_nested_ind;
    simpl; try lia.
  - pose proof (max_list_succ enclosing items).
    pose proof (max_list_mono enclosing levels items) as Hup.
    pose proof (max_list_mono levels (fun i => 1 + enclosing i) items) as Hlo.
    pose proof (max_list_nonneg (map (fun i => 1 + enclosing i) items)).
    assert (max_list (map enclosing items) <= max_list (map levels items)).
    { apply Hup. eapply Forall_impl; [exact IH|]. simpl. lia. }
    assert (max_list (map levels items)
            <= max_list (map (fun i => 1 + enclosing i) items)).
    { apply Hlo. eapply Forall_impl; [exact IH|]. simpl. lia. }
    lia.
  - pose proof (max_list_succ (fun kv : jsstring * JValue => enclosing kv.2) props) as Hs.
    pose proof (max_list_mono (fun kv : jsstring * JValue => enclosing kv.2)
                  (fun kv => levels kv.2) props) as Hup.
    pose proof (max_list_mono (fun kv : jsstring * JValue => levels kv.2)
                  (fun kv => 1 + enclosing kv.2) props) as Hlo.
    assert (Hm1 : map (fun '(_, i) => 1 + enclosing i) props
                  = map (fun kv : jsstring * JValue => 1 + enclosing kv.2) props)
      by (apply map_ext; by intros []).
    assert (Hm2 : map (fun '(_, i) => levels i) props
                  = map (fun kv : jsstring * JValue => levels kv.2) props)
      by (apply map_ext; by intros []).
    rewrite Hm1, Hm2.
    pose proof (max_list_nonneg
                  (map (fun kv : jsstring * JValue => 1 + enclosing kv.2) props)).
    assert (max_list (map (fun kv : jsstring * JValue => enclosing kv.2) props)
            <= max_list (map (fun kv : jsstring * JValue => levels kv.2) props)).
    { apply Hup. eapply Forall_impl; [exact IH|]. simpl. lia. }
    assert (max_list (map (fun kv : jsstring * JValue => levels kv.2) props)
            <= max_list (map (fun kv : jsstring * JValue => 1 + enclosing kv.2) props)).
    { apply Hlo. eapply Forall_impl; [exact IH|]. simpl. lia. }
    cbv beta in *. lia.
Qed.

(** C2 does not hold of the code.  The default limit is documented as
    100 levels of nesting, yet 101 arrays nested in one another, the
    innermost empty, are accepted under it, by [safeJsonParse] and so by
    [parseSSELine]: the depth is compared on entering a value, and an
    innermost empty array has no item on which the comparison at depth
    101 would be made.  The same 101 arrays around a number are
    rejected, as documented. *)
Theorem safeJsonParse_depth_off_by_one :
  DEFAULT_MAX_JSON_DEPTH = 100 /\
  levels (nested_arrays 100 (JArray [])) = 101 /\
  safeJsonParse (nested_arrays_text 100 (js "[]"))
    DEFAULT_MAX_JSON_SIZE DEFAULT_MAX_JSON_DEPTH = nested_arrays 100 (JArray []) /\
  parseSSELine (js "data: " ++ nested_arrays_text 100 (js "[]")) no_options
    = nested_arrays 100 (JArray []) /\
  levels (nested_arrays 101 (JNumber (js "1"))) = 101 /\
  JSON_parse (nested_arrays_text 101 (js "1")) = Some (nested_arrays 101 (JNumber (js "1"))) /\
  safeJsonParse (nested_arrays_text 101 (js "1"))
    DEFAULT_MAX_JSON_SIZE DEFAULT_MAX_JSON_DEPTH = JNull.
Proof. repeat apply conj; vm_compute; reflexivity. Qed.

(** The same at the smallest scale: [[[]]] has two levels and is
    accepted under the limit [1]. *)
Example safeJsonParse_empty_innermost :
  levels (JArray [JArray []]) = 1 + 1 /\
  safeJsonParse (js "[[]]") DEFAULT_MAX_JSON_SIZE 1 = JArray [JArray []].
Proof. split; vm_compute; reflexivity. Qed.

(** With a value at the innermost level the limit is exact: depth [1] is
    accepted under the limit [1], depth [2] is rejected. *)
Example safeJsonParse_limit_exact :
  safeJsonParse (js "[1]") DEFAULT_MAX_JSON_SIZE 1 = JArray [JNumber (js "1")] /\
  safeJsonParse (js "[[1]]") DEFAULT_MAX_JSON_SIZE 1 = JNull.
Proof. split; vm_compute; reflexivity. Qed.

(** The size limit counts bytes, not code units: a quoted e-acute is three
    code units and four bytes. *)
Example safeJsonParse_counts_bytes :
  length [34; 233; 34]%N = 3%nat /\
  safeJsonParse [34; 233; 34]%N 3 DEFAULT_MAX_JSON_DEPTH = JNull /\
  safeJsonParse [34; 233; 34]%N 4 DEFAULT_MAX_JSON_DEPTH = JString [233%N].
Proof. repeat split; vm_compute; reflexivity. Qed.
End GuardedDecoder.

(** ** Frame parser *)

Section FrameParser.
Implicit Types (line s : jsstring) (o : ISSEParserOptions).

Lemma str_eqb_eq (a b : jsstring) : str_eqb a b = true <-> a = b.
Proof.
  revert b. induction a as [|x a IH]; intros [|y b]; simpl; try done.
  rewrite andb_true_iff, N.eqb_eq, IH. split; [by intros [-> ->] | by intros [= -> ->]].
Qed.

Lemma truthy_str_false s : truthy_str s = false <-> s = [].
Proof. by destruct s. Qed.






Lemma safeJsonParse_empty maxSize maxDepth :
  safeJsonParse [] maxSize maxDepth = JNull.
Proof. unfold safeJsonParse. by destruct (negb _). Qed.

Lemma startsWith_nil_l (p : jsstring) : startsWith [] p = true -> p = [].
Proof. by destruct p. Qed.

(** C10.  A payload that is the JSON literal [null] decodes to [null],
    which the parser cannot tell from a failed decode: the line gives
    the four-character string [null], whatever the options.  An empty
    payload gives [null] when JSON parsing is enabled.  In particular
    [data: null] gives the string and [data: ] gives [null]. *)
Theorem parseSSELine_null_payload line o :
  startsWith (trim line) (js ":") = false ->
  startsWith (trim line) (default (js "data") (dataField o) ++ js ":") = true ->
  (payload_of line o = js "null" -> parseSSELine line o = JString (js "null")) /\
  (payload_of line o = [] -> default true (parseJson o) = true ->
   parseSSELine line o = JNull) /\
  JSON_parse (js "null") = Some JNull /\
  parseSSELine (js "data: null") no_options = JString (js "null") /\
  parseSSELine (js "data: ") no_options = JNull.
Proof.
  intros Hc Hp.
  assert (Hne : truthy_str (trim line) = true).
  { destruct (trim line); [|done]. apply startsWith_nil_l in Hp.
    by destruct (default (js "data") (dataField o)). }
  unfold payload_of, parseSSELine. rewrite Hne, Hc, Hp. cbn [negb orb].
  split; [|split; [|repeat split; vm_compute; reflexivity]].
  - intros ->. cbn [str_eqb js]. change (str_eqb (js "null") (js "[DONE]")) with false.
    cbv iota. destruct (default true (parseJson o)); [|done].
    unfold safeJsonParse. change (JSON_parse (js "null")) with (Some JNull).
    destruct (negb _); [done|]. by destruct (negb _).
  - intros -> ->. cbn [str_eqb js]. rewrite safeJsonParse_empty. reflexivity.
Qed.

Lemma parseSSELine_null_payload_witness :
  startsWith (trim (js "data: null")) (js ":") = false /\
  startsWith (trim (js "data: null"))
    (default (js "data") (dataField no_options) ++ js ":") = true /\
  parseSSELine (js "data: null") no_options = JString (js "null").
Proof.
  split; [reflexivity|]. split; [reflexivity|].
  apply (parseSSELine_null_payload (js "data: null") no_options);
    reflexivity.
Defined.
End FrameParser.

(** ** Provider adapters *)

Section Adapters.
Implicit Types (index : option Z) (name fragment : jsstring)
  (id : option jsstring).




Lemma openai_finish_frame_empty :
  openai_adapter [] finish_frame = ([], None).
Proof. reflexivity. Qed.





(** C5 does not hold of the code.  On a finish frame the adapter
    returns from inside its loop over the accumulated slots: it emits
    the end of the first slot only and never reaches the call that
    clears the map.  So the state is unchanged, and a second, identical
    finish frame emits the same [tool_end] again. *)
Theorem openai_finish_does_not_clear k (s : IToolCallState) (rest : OpenAIState) :
  feed_frames openai_adapter ((k, s) :: rest) [finish_frame; finish_frame]
  = ([ Some (tool_end_event (tcs_name s) (tcs_arguments s));
       Some (tool_end_event (tcs_name s) (tcs_arguments s)) ],
     (k, s) :: rest).
Proof. reflexivity. Qed.

(** The same on a concrete run: one tool call, then two finish frames. *)
Example openai_finish_twice :
  feed_frames openai_adapter createOpenAIAdapter
    [ name_frame (Some 0) None (js "search") None [];
      arguments_frame (Some 0) (js "{}");
      finish_frame; finish_frame ]
  = ([ Some (tool_start_event (js "search") None);
       None;
       Some (tool_end_event (js "search") (js "{}"));
       Some (tool_end_event (js "search") (js "{}")) ],
     [ (0, {| tcs_id := js "tool_0"; tcs_name := js "search";
              tcs_arguments := js "{}" |}) ]).
Proof. vm_compute. reflexivity. Qed.

(** With two accumulated slots, only the first is ever ended. *)
Example openai_finish_second_slot_lost :
  (feed_frames openai_adapter createOpenAIAdapter
     [ name_frame (Some 0) None (js "search") None [];
       name_frame (Some 1) None (js "fetch") None [];
       finish_frame; finish_frame ]).1
  = [ Some (tool_start_event (js "search") None);
      Some (tool_start_event (js "fetch") None);
      Some (tool_end_event (js "search") []);
      Some (tool_end_event (js "search") []) ].
Proof. vm_compute. reflexivity. Qed.

Lemma anthropic_tool_use_start index id (name : option jsstring) :
  anthropic_adapter createAnthropicAdapter (tool_use_start index id name) =
  ([(default 0 index,
     {| tus_id := default (js "tool_" ++ Z_to_js (default 0 index)) id;
        tus_name := default (js "unknown_tool") name;
        tus_input := [] |})],
   Some (tool_start_event (default (js "unknown_tool") name) None)).
Proof. reflexivity. Qed.

(** The stop of a recorded block ends it and removes the slot. *)
Lemma anthropic_block_stop index (s : IToolUseState) :
  anthropic_adapter [(default 0 index, s)] (block_stop index) =
  ([], Some (tool_end_event (tus_name s) (tus_input s))).
Proof.
  unfold anthropic_adapter, block_stop.
  cbn -[Z.eqb]. by rewrite Z.eqb_refl.
Qed.

Lemma anthropic_block_stop_absent index :
  anthropic_adapter [] (block_stop index) = ([], None).
Proof. reflexivity. Qed.

(** C6.  A fresh Anthropic adapter is fed the start of a [tool_use]
    block and then, with no delta between, the stop of the block at the
    same index.  The start yields one [tool_start], the stop yields one
    [tool_end] with the empty string as output, the slot is then gone
    from the state, and a second stop for the index yields nothing. *)
Theorem anthropic_start_stop index id (name : option jsstring) :
  feed_frames anthropic_adapter createAnthropicAdapter
    [ tool_use_start index id name; block_stop index; block_stop index ]
  = ([ Some (tool_start_event (default (js "unknown_tool") name) None);
       Some (tool_end_event (default (js "unknown_tool") name) []);
       None ],
     []) /\
  (feed_frames anthropic_adapter createAnthropicAdapter
     [ tool_use_start index id name; block_stop index ]).2 = [].
Proof.
  cbn [feed_frames].
  rewrite anthropic_tool_use_start, anthropic_block_stop, anthropic_block_stop_absent.
  done.
Qed.
End Adapters.

(** ** Isolation of adapter instances *)

Section Isolation.
Implicit Types (h : Heap) (l : nat) (o : MapObject) (c : Closure) (w : World).

Lemma store_id l o h : objects h !! l = Some o -> store l o h = h.
Proof.
  intros Hl. destruct h as [os n]. unfold store. simpl in *.
  f_equal. by apply insert_id.
Qed.

Lemma store_store l o1 o2 h : store l o2 (store l o1 h) = store l o2 h.
Proof. unfold store. simpl. f_equal. apply insert_insert_eq. Qed.

Lemma lookup_store l o h : objects (store l o h) !! l = Some o.
Proof. unfold store. simpl. apply lookup_insert_eq. Qed.

Lemma lookup_store_ne l l' o h :
  l <> l' -> objects (store l o h) !! l' = objects h !! l'.
Proof. intros Hne. unfold store. simpl. by apply lookup_insert_ne. Qed.

Lemma tool_calls_at_lookup h l m :
  objects h !! l = Some (ToolCallsMap m) -> tool_calls_at h l = m.
Proof. intros Hl. unfold tool_calls_at. by rewrite Hl. Qed.

Lemma tool_uses_at_lookup h l m :
  objects h !! l = Some (ToolUseMap m) -> tool_uses_at h l = m.
Proof. intros Hl. unfold tool_uses_at. by rewrite Hl. Qed.

(** The loop of the OpenAI closure writes the map it captured, as the
    transition function does, and nothing else. *)
Lemma openai_closure_loop_refines l tool_calls : forall h m,
  objects h !! l = Some (ToolCallsMap m) ->
  openai_closure_loop l tool_calls h =
  (store l (ToolCallsMap (openai_tool_calls_loop tool_calls m).1) h,
   (openai_tool_calls_loop tool_calls m).2).
Proof.
  induction tool_calls as [|toolCall rest IH]; intros h m Hl;
    cbn [openai_closure_loop openai_tool_calls_loop].
  - simpl. by rewrite store_id.
  - unfold tool_calls_set. rewrite (tool_calls_at_lookup h l m Hl).
    destruct (truthy_opt (tc_function toolCall ≫= fn_name)); [done|].
    destruct (truthy_opt (tc_function toolCall ≫= fn_arguments)); [|by apply IH].
    destruct (map_get m (default 0 (tc_index toolCall))) as [existing|];
      [|by apply IH].
    erewrite IH by apply lookup_store. by rewrite store_store.
Qed.

Lemma openai_closure_refines l rawEvent h m :
  objects h !! l = Some (ToolCallsMap m) ->
  openai_closure l rawEvent h =
  (store l (ToolCallsMap (openai_adapter m rawEvent).1) h,
   (openai_adapter m rawEvent).2).
Proof.
  intros Hl. pose proof (store_id l _ h Hl) as Hid.
  unfold openai_closure, openai_adapter.
  destruct rawEvent as [|chunk|event]; simpl; try by rewrite Hid.
  destruct (chunk_choices chunk ≫= head) as [choice|]; simpl; [|by rewrite Hid].
  destruct (truthy_opt (choice_delta choice ≫= delta_content)); simpl;
    [by rewrite Hid|].
  assert (Hloop : exists m1 e,
    match choice_delta choice ≫= delta_tool_calls with
    | Some tool_calls => openai_closure_loop l tool_calls h
    | None => (h, None)
    end = (store l (ToolCallsMap m1) h, e) /\
    match choice_delta choice ≫= delta_tool_calls with
    | Some tool_calls => openai_tool_calls_loop tool_calls m
    | None => (m, None)
    end = (m1, e)).
  { destruct (choice_delta choice ≫= delta_tool_calls) as [tool_calls|].
    - exists (openai_tool_calls_loop tool_calls m).1,
             (openai_tool_calls_loop tool_calls m).2.
      split; [by apply openai_closure_loop_refines|].
      by destruct (openai_tool_calls_loop tool_calls m).
    - exists m, None. by rewrite Hid. }
  destruct Hloop as (m1 & e & -> & ->).
  destruct e as [e|]; [done|].
  destruct (is_str (choice_finish_reason choice) (js "tool_calls")); [|done].
  rewrite (tool_calls_at_lookup _ l m1) by apply lookup_store.
  destruct m1 as [|[k toolCall] m1]; [|done].
  unfold tool_calls_clear.
  rewrite (tool_calls_at_lookup _ l []) by apply lookup_store.
  simpl. by rewrite store_store.
Qed.

Lemma anthropic_closure_refines l rawEvent h m :
  objects h !! l = Some (ToolUseMap m) ->
  anthropic_closure l rawEvent h =
  (store l (ToolUseMap (anthropic_adapter m rawEvent).1) h,
   (anthropic_adapter m rawEvent).2).
Proof.
  intros Hl. pose proof (store_id l _ h Hl) as Hid.
  unfold anthropic_closure, anthropic_adapter, tool_uses_set, tool_uses_delete.
  rewrite (tool_uses_at_lookup h l m Hl).
  destruct rawEvent as [|chunk|event]; simpl; try by rewrite Hid.
  repeat (match goal with
          | |- context [if ?b then _ else _] => destruct b
          | |- context [match ?x with Some _ => _ | None => _ end] => destruct x
          end; simpl; try done; try by rewrite Hid).
Qed.

(** A call of a closure on a heap where its reference holds a map of
    its kind: the map makes the step of the transition function, the
    call returns what that step returns, and no other object changes. *)
Lemma call_closure_refines c rawEvent h o :
  objects h !! captured c = Some o -> kind_ok c o ->
  call_closure c rawEvent h =
  (store (captured c) (object_step o rawEvent).1 h, (object_step o rawEvent).2).
Proof.
  intros Hl Hk. destruct c as [l|l], o as [m|m]; try done; simpl in *.
  - rewrite (openai_closure_refines l rawEvent h m Hl).
    by destruct (openai_adapter m rawEvent).
  - rewrite (anthropic_closure_refines l rawEvent h m Hl).
    by destruct (anthropic_adapter m rawEvent).
Qed.

Lemma object_step_kind c o rawEvent :
  kind_ok c o -> kind_ok c (object_step o rawEvent).1.
Proof.
  destruct c, o as [m|m]; simpl; try done.
  - by destruct (openai_adapter m rawEvent).
  - by destruct (anthropic_adapter m rawEvent).
Qed.

Lemma fresh_object_kind c : kind_ok c (fresh_object c).
Proof. by destruct c. Qed.

(** A factory call returns a closure over a reference that was free,
    and leaves every allocated object as it was. *)
Lemma create_closure_fresh p h :
  captured (create_closure p h).1 = next_loc h /\
  next_loc (create_closure p h).2 = S (next_loc h) /\
  objects (create_closure p h).2 !! next_loc h
    = Some (fresh_object (create_closure p h).1) /\
  (forall l, l <> next_loc h ->
     objects (create_closure p h).2 !! l = objects h !! l).
Proof.
  destruct p; simpl; repeat apply conj; try done;
    try apply lookup_insert_eq; intros l Hne; by apply lookup_insert_ne.
Qed.

Lemma feed_frames_object_step_calls frames : forall m,
  feed_frames object_step (ToolCallsMap m) frames =
  ((feed_frames openai_adapter m frames).1,
   ToolCallsMap (feed_frames openai_adapter m frames).2).
Proof.
  induction frames as [|f frames IH]; intros m; cbn [feed_frames]; [done|].
  cbn [object_step]. destruct (openai_adapter m f) as [m1 e].
  rewrite IH. by destruct (feed_frames openai_adapter m1 frames).
Qed.

Lemma feed_frames_object_step_uses frames : forall m,
  feed_frames object_step (ToolUseMap m) frames =
  ((feed_frames anthropic_adapter m frames).1,
   ToolUseMap (feed_frames anthropic_adapter m frames).2).
Proof.
  induction frames as [|f frames IH]; intros m; cbn [feed_frames]; [done|].
  cbn [object_step]. destruct (anthropic_adapter m f) as [m1 e].
  rewrite IH. by destruct (feed_frames anthropic_adapter m1 frames).
Qed.

Lemma alone_object_step c frames :
  alone c frames = feed_frames object_step (fresh_object c) frames.
Proof.
  destruct c; simpl.
  - rewrite feed_frames_object_step_calls.
    by destruct (feed_frames openai_adapter createOpenAIAdapter frames).
  - rewrite feed_frames_object_step_uses.
    by destruct (feed_frames anthropic_adapter createAnthropicAdapter frames).
Qed.

Lemma reachable_empty : reachable empty_world.
Proof. split; simpl; constructor. Qed.

Lemma reachable_create p w :
  reachable w ->
  reachable {| heap := (create_closure p (heap w)).2;
               created := created w ++ [(create_closure p (heap w)).1] |}.
Proof.
  intros [Hnd Hall].
  destruct (create_closure_fresh p (heap w)) as (Hc & Hn & Ho & Hf).
  split; simpl.
  - rewrite map_app. simpl. apply NoDup_app. split; [done|].
    split; [|apply NoDup_singleton].
    intros l Hin Hin'. apply list_elem_of_singleton in Hin'. subst l.
    apply list_elem_of_fmap in Hin as (c & Hcc & Hin).
    rewrite Forall_forall in Hall. destruct (Hall c Hin) as [Hlt _].
    rewrite Hc in Hcc. lia.
  - apply Forall_app. split.
    + eapply Forall_impl; [exact Hall|]. intros c (Hlt & o & Hlo & Hk).
      split; [lia|]. exists o. split; [|done]. rewrite Hf; [done | lia].
    + constructor; [|constructor]. split; [lia|].
      exists (fresh_object (create_closure p (heap w)).1).
      rewrite Hc. split; [done | apply fresh_object_kind].
Qed.

Lemma reachable_call c rawEvent w :
  reachable w -> c ∈ created w ->
  reachable {| heap := (call_closure c rawEvent (heap w)).1; created := created w |}.
Proof.
  intros [Hnd Hall] Hin. pose proof Hall as Hall'.
  rewrite Forall_forall in Hall'. destruct (Hall' c Hin) as (Hlt & o & Hlo & Hk).
  rewrite (call_closure_refines c rawEvent (heap w) o Hlo Hk).
  split; simpl; [done|].
  eapply Forall_impl; [exact Hall|]. intros c' (Hlt' & o' & Hlo' & Hk').
  split; [done|].
  destruct (decide (captured c = captured c')) as [Heq|Hne].
  - exists (object_step o rawEvent).1. rewrite <- Heq.
    split; [apply lookup_insert_eq|].
    rewrite <- Heq in Hlo'. assert (o' = o) by congruence. subst o'.
    destruct c, c', o; simpl in *; try done;
      match goal with |- context [?f ?m rawEvent] => by destruct (f m rawEvent) end.
  - exists o'. split; [|done]. by rewrite lookup_insert_ne.
Qed.

Lemma calls_on_cons_same i rawEvent e log :
  calls_on i ({| call_target := i; call_frame := rawEvent; call_result := e |} :: log)
  = {| call_target := i; call_frame := rawEvent; call_result := e |} :: calls_on i log.
Proof. unfold calls_on. simpl. by rewrite Nat.eqb_refl. Qed.

Lemma calls_on_cons_other i j rawEvent e log :
  j <> i ->
  calls_on i ({| call_target := j; call_frame := rawEvent; call_result := e |} :: log)
  = calls_on i log.
Proof.
  intros Hne. unfold calls_on. simpl.
  by destruct (Nat.eqb_spec j i).
Qed.

Lemma calls_on_none i (n : nat) log :
  Forall (fun k => (call_target k < n)%nat) log -> (n <= i)%nat ->
  calls_on i log = [].
Proof.
  intros Hlog Hn. induction log as [|[j f e] log IH]; [done|].
  apply Forall_cons in Hlog as [Hk Hlog]. simpl in Hk.
  rewrite calls_on_cons_other by lia. by apply IH.
Qed.

(** The general form, from any world a program can reach: adapter [i]
    starts from the map its reference holds if it has been created, and
    from a fresh map if it is still to be created. *)
Lemma run_isolated ops : forall w,
  reachable w ->
  reachable (run ops w).2 /\
  (exists more, created (run ops w).2 = created w ++ more) /\
  Forall (fun k => (call_target k < length (created (run ops w).2))%nat) (run ops w).1 /\
  forall i c, created (run ops w).2 !! i = Some c ->
    exists o0,
      (if decide (i < length (created w))%nat
       then objects (heap w) !! captured c = Some o0
       else o0 = fresh_object c) /\
      map call_result (calls_on i (run ops w).1)
        = (feed_frames object_step o0 (map call_frame (calls_on i (run ops w).1))).1 /\
      objects (heap (run ops w).2) !! captured c
        = Some (feed_frames object_step o0
                  (map call_frame (calls_on i (run ops w).1))).2.
Proof.
  induction ops as [|[p|j rawEvent] ops IH]; intros w Hw; cbn [run].
  - simpl. split; [done|]. split; [by exists []; rewrite app_nil_r|].
    split; [constructor|]. intros i c Hic.
    destruct Hw as [Hnd Hall]. rewrite Forall_forall in Hall.
    destruct (Hall c) as (Hlt & o & Hlo & Hk); [by eapply list_elem_of_lookup_2|].
    exists o. apply lookup_lt_Some in Hic.
    destruct (decide (i < length (created w))%nat); [done | lia].
  - pose proof (reachable_create p w Hw) as Hw1.
    destruct (create_closure_fresh p (heap w)) as (Hc & Hn & Ho & Hf).
    destruct (create_closure p (heap w)) as [c0 h1]. simpl in *.
    destruct (IH _ Hw1) as (Hr & (more & Hmore) & Hlog & Hi). simpl in *.
    split; [done|]. split; [exists (c0 :: more); by rewrite Hmore, <- app_assoc|].
    split; [done|]. intros i c Hic.
    destruct (Hi i c Hic) as (o0 & Hstart & Hout & Hend).
    exists o0. split; [|done].
    rewrite length_app in Hstart. simpl in Hstart.
    rewrite Hmore, <- app_assoc in Hic. simpl in Hic.
    destruct (decide (i < length (created w))%nat) as [Hlt|Hge].
    + destruct (decide (i < length (created w) + 1)%nat); [|lia].
      rewrite lookup_app_l in Hic by done.
      destruct Hw as [Hnd Hall]. rewrite Forall_forall in Hall.
      destruct (Hall c) as (Hlt' & _); [by eapply list_elem_of_lookup_2|].
      rewrite Hf in Hstart; [done | lia].
    + destruct (decide (i < length (created w) + 1)%nat) as [Hlt|]; [|done].
      assert (i = length (created w)) by lia. subst i.
      rewrite lookup_app_r, Nat.sub_diag in Hic by lia. simpl in Hic.
      assert (c = c0) by congruence. subst c.
      rewrite Hc, Ho in Hstart. congruence.
  - destruct (created w !! j) as [cj|] eqn:Hj; [|by apply IH].
    assert (Hin : cj ∈ created w) by by eapply list_elem_of_lookup_2.
    pose proof (reachable_call cj rawEvent w Hw Hin) as Hw1.
    pose proof Hw as [Hnd Hall]. rewrite Forall_forall in Hall.
    destruct (Hall cj Hin) as (Hltj & oj & Hoj & Hkj).
    pose proof (call_closure_refines cj rawEvent (heap w) oj Hoj Hkj) as Hcall.
    destruct (call_closure cj rawEvent (heap w)) as [h1 e]. simpl in Hw1.
    injection Hcall as -> ->.
    destruct (IH _ Hw1) as (Hr & (more & Hmore) & Hlog & Hi).
    cbn [heap created] in Hmore, Hi.
    destruct (run ops _) as [log w'] eqn:Hrun. cbn [fst snd] in *.
    split; [done|]. split; [by exists more|].
    split.
    { constructor; [|done]. simpl. rewrite Hmore, length_app.
      apply lookup_lt_Some in Hj. lia. }
    intros i c Hic.
    destruct (Hi i c Hic) as (o1 & Hstart & Hout & Hend).
    destruct (decide (j = i)) as [->|Hne].
    + rewrite calls_on_cons_same.
      cbn [map feed_frames call_frame call_result].
      assert (c = cj).
      { rewrite Hmore, lookup_app_l in Hic by by eapply lookup_lt_Some.
        congruence. }
      subst c. exists oj.
      destruct (decide (i < length (created w))%nat) as [Hlt|Hge];
        [|apply lookup_lt_Some in Hj; lia].
      rewrite lookup_store in Hstart. injection Hstart as <-.
      split; [done|].
      destruct (object_step oj rawEvent) as [o1 e1]. simpl in *.
      destruct (feed_frames object_step o1 (map call_frame (calls_on i log)))
        as [es st]. simpl in *. by rewrite Hout.
    + rewrite calls_on_cons_other by done.
      exists o1. split; [|done].
      destruct (decide (i < length (created w))%nat) as [Hlt|Hge]; [|done].
      rewrite Hmore, lookup_app_l in Hic by done.
      rewrite lookup_store_ne in Hstart; [done|].
      intros Heq. apply Hne.
      eapply (NoDup_lookup (map captured (created w))); [done| |].
      * by rewrite list_lookup_fmap, Hj.
      * by rewrite list_lookup_fmap, Hic, Heq.
Qed.

(** C9.  A program calls the two factories and the adapters it has
    obtained, any number of times and in any order, adapters being
    created before, between and after the calls on other adapters.  The
    adapters it obtains captured pairwise different maps.  For each of
    them, what its calls returned, in order, and the map it ends with
    are what the transition function of its kind returns and ends with
    when started fresh and fed the frames of these calls alone: no
    frame fed to another adapter, and no creation of another adapter,
    changes them. *)
Theorem adapters_isolated (ops : list Op) (i : nat) :
  let log := (run ops empty_world).1 in
  let w := (run ops empty_world).2 in
  NoDup (map captured (created w)) /\
  match created w !! i with
  | Some c =>
      map call_result (calls_on i log)
        = (alone c (map call_frame (calls_on i log))).1 /\
      objects (heap w) !! captured c
        = Some (alone c (map call_frame (calls_on i log))).2
  | None => calls_on i log = []
  end.
Proof.
  intros log w. subst log w.
  destruct (run_isolated ops empty_world reachable_empty)
    as ([Hnd _] & _ & Hlog & Hi).
  split; [done|].
  destruct (created (run ops empty_world).2 !! i) as [c|] eqn:Hic.
  - destruct (Hi i c Hic) as (o0 & Hstart & Hout & Hend).
    simpl in Hstart. destruct (decide (i < 0)%nat); [lia|]. subst o0.
    by rewrite alone_object_step.
  - apply lookup_ge_None in Hic. by eapply calls_on_none.
Qed.

(** A run with interleaved calls and creations: the tool call fed to
    the first adapter is reassembled as if the second, created after
    the first was called and fed a tool call of its own in between, did
    not exist. *)
Example adapters_isolated_run :
  map call_result
    (calls_on 0
       (run [ NewAdapter OpenAI;
              CallAdapter 0 (name_frame None None (js "search") None []);
              NewAdapter OpenAI;
              CallAdapter 1 (name_frame None None (js "fetch") None []);
              CallAdapter 0 (arguments_frame None (js "{x}"));
              CallAdapter 1 (arguments_frame None (js "{y}"));
              NewAdapter Anthropic;
              CallAdapter 2 (tool_use_start None None None);
              CallAdapter 0 finish_frame ] empty_world).1)
  = [ Some (tool_start_event (js "search") None);
      None;
      Some (tool_end_event (js "search") (js "{x}")) ].
Proof. vm_compute. reflexivity. Qed.

(** The isolation rests on the factories, which allocate a map at each
    call.  The heap itself allows two closures over one map, and such
    closures do interfere: the name frame handed to one makes the
    finish frame handed to the other end a tool call. *)
Example shared_map_interferes :
  let h := (new_Map (ToolCallsMap []) empty_heap).2 in
  let a := OpenAIClosure 0 in
  let b := OpenAIClosure 0 in
  (call_closure a finish_frame h).2 = None /\
  (call_closure a finish_frame
     (call_closure b (name_frame None None (js "fetch") None []) h).1).2
  = Some (tool_end_event (js "fetch") []).
Proof. split; vm_compute; reflexivity. Qed.
End Isolation.

(** ** Stream driver *)

Section Driver.
Context {St : Type}.
Variable adapter : St -> JValue -> St * option IStreamEvent.

(** C7 does not hold of the code.  When the signal fires while [fetch]
    is pending, the rejection is caught by the outer handler: the driver
    calls [onError] with the [AbortError] and never calls [onComplete]. *)
Theorem streamSSE_abort_before_response (fetch : FetchResult) (st : St) :
  streamSSE adapter (abort_after 0 fetch) st
    = [OnError (js "AbortError") (js "The operation was aborted.")] /\
  count_complete (streamSSE adapter (abort_after 0 fetch) st) = 0%nat /\
  existsb is_OnError (streamSSE adapter (abort_after 0 fetch) st) = true.
Proof. done. Qed.

(** The same happens when the signal fires while the body of an error
    response is being read. *)
Example streamSSE_abort_during_error_body (st : St) :
  streamSSE adapter
    (abort_after 1
       (FetchResolves {| resp_ok := false; resp_status := 500;
                         resp_text := inr (js "overloaded");
                         resp_body := Some [] |})) st
  = [OnError (js "AbortError") (js "The operation was aborted.")].
Proof. reflexivity. Qed.

Lemma on_data_events st values :
  Forall (fun c => is_OnComplete c = false /\ is_OnError c = false)
    (on_data adapter st values).1.
Proof.
  revert st. induction values as [|v values IH]; intros st; simpl; [constructor|].
  destruct (adapter st v) as [st1 [e|]]; specialize (IH st1);
    destruct (on_data adapter st1 values) as [cbs st2]; simpl in *.
  - by constructor.
  - done.
Qed.

Lemma quiet_events cbs :
  Forall (fun c => is_OnComplete c = false /\ is_OnError c = false) cbs -> quiet cbs.
Proof.
  unfold quiet, count_complete. induction 1 as [|c cbs [Hc He] _ [IH1 IH2]]; [done|].
  split.
  - rewrite filter_cons_False; [done|]. rewrite Hc. by intros [].
  - simpl. by rewrite He, IH2.
Qed.

Lemma quiet_app_count cbs cbs' :
  quiet cbs ->
  count_complete (cbs ++ cbs') = count_complete cbs' /\
  existsb is_OnError (cbs ++ cbs') = existsb is_OnError cbs'.
Proof.
  intros [Hc He]. unfold count_complete in *.
  rewrite filter_app, length_app, Hc, existsb_app, He. done.
Qed.

(** The read loop, when the reads are ended by the rejection of an
    aborted read and none before it rejects: either the stream was done
    first, and [onComplete] was called once, or the [AbortError] comes
    out of the loop and no callback but [onEvent] was called. *)
Lemma read_loop_aborted reads parser st :
  Forall (fun rd => forall e, rd <> ReadRejects e) reads ->
  let '(cbs, thrown) :=
    read_loop adapter (reads ++ [ReadRejects AbortError]) parser st in
  existsb is_OnError cbs = false /\
  ((thrown = None /\ count_complete cbs = 1%nat) \/
   (thrown = Some AbortError /\ count_complete cbs = 0%nat)).
Proof.
  intros Hreads. revert parser st.
  induction Hreads as [|rd reads Hrd _ IH]; intros parser st.
  - simpl. split; [done|]. by right.
  - destruct rd as [chunk| |e]; cbn [app read_loop].
    + destruct (feed None parser chunk) as [values parser1].
      pose proof (quiet_events _ (on_data_events st values)) as Hq.
      destruct (on_data adapter st values) as [cbs st1]. simpl in Hq.
      specialize (IH parser1 st1).
      destruct (read_loop adapter (reads ++ [ReadRejects AbortError]) parser1 st1)
        as [cbs' thrown].
      destruct (quiet_app_count cbs cbs' Hq) as [-> ->]. done.
    + split; [done|]. by left.
    + by destruct (Hrd e).
Qed.

(** The sibling path: when the signal fires while a read is pending, the
    inner handler turns the rejection into one [onComplete], and
    [onError] is not called. *)
Lemma streamSSE_abort_mid_read (response : Response) (reads : list ReadResult)
  (n : nat) (st : St) :
  resp_ok response = true ->
  resp_body response = Some reads ->
  Forall (fun rd => forall e, rd <> ReadRejects e) (take n reads) ->
  count_complete (streamSSE adapter (abort_after (S n) (FetchResolves response)) st)
    = 1%nat /\
  existsb is_OnError (streamSSE adapter (abort_after (S n) (FetchResolves response)) st)
    = false.
Proof.
  intros Hok Hbody Hreads. unfold streamSSE, abort_after.
  cbn [resp_ok resp_body]. rewrite Hok, Hbody. cbn [negb fmap option_fmap option_map].
  pose proof (read_loop_aborted (take n reads) createSSEParser st Hreads) as H.
  destruct (read_loop adapter (take n reads ++ [ReadRejects AbortError])
              createSSEParser st) as [cbs thrown].
  destruct H as [He [[-> Hc]|[-> Hc]]]; [done|].
  cbn [is_abort AbortError]. change (str_eqb (js "AbortError") (js "AbortError")) with true.
  cbv iota. unfold count_complete in *.
  rewrite filter_app, length_app, Hc, existsb_app, He. done.
Qed.
End Driver.

(** ** Turn handling *)

Section Turn.
Implicit Types (h : ChatHook) (env : TurnEnv) (msgs : list IMessage).

Lemma handleStreamEvent_no_token event h :
  is_token event = false -> handleStreamEvent event h = h.
Proof.
  unfold is_token, handleStreamEvent.
  destruct (ev_type event); try done; by intros ->.
Qed.

Lemma deliver_no_token events h :
  Forall (fun e => is_token e = false) events -> deliver events h = h.
Proof.
  intros Hev. revert h. unfold deliver.
  induction Hev as [|e events He _ IH]; intros h; simpl; [done|].
  by rewrite handleStreamEvent_no_token, IH.
Qed.




End Turn.

(** ** Guarded decoder: limits *)

Section DecoderLimits.
Implicit Types (text s : jsstring) (maxSize maxDepth : Z).

(** X1.  Raising the limits never loses a payload: what is accepted
    under [maxSize] and [maxDepth] is returned unchanged under any larger
    limits. *)
Theorem safeJsonParse_monotone text maxSize maxDepth maxSize' maxDepth' :
  maxSize <= maxSize' -> maxDepth <= maxDepth' ->
  safeJsonParse text maxSize maxDepth <> JNull ->
  safeJsonParse text maxSize' maxDepth'
    = safeJsonParse text maxSize maxDepth.
Proof.
intros Hs Hd. unfold safeJsonParse, checkJsonSize.
destruct (Z.leb_spec (blob_size text) maxSize) as [Hle|Hgt]; [|done].
destruct (Z.leb_spec (blob_size text) maxSize') as [_|Hgt']; [|lia].
cbn [negb]. destruct (JSON_parse text) as [v|]; [|done].
destruct (checkJsonDepth v maxDepth 0) eqn:Hc; [|done].
apply checkJsonDepth_spec in Hc.
assert (Hc' : checkJsonDepth v maxDepth' 0 = true)
  by (apply checkJsonDepth_spec; lia).
by rewrite Hc'.
Qed.

Lemma safeJsonParse_monotone_witness :
  5 <= 10 /\ 1 <= 7 /\
  safeJsonParse (js "[1]") 5 1 <> JNull /\
  safeJsonParse (js "[1]") 10 7 = safeJsonParse (js "[1]") 5 1.
Proof.
assert (H : safeJsonParse (js "[1]") 5 1 <> JNull) by (vm_compute; discriminate).
split; [lia|]. split; [lia|]. split; [exact H|].
apply (safeJsonParse_monotone (js "[1]") 5 1 10 7); [lia | lia | exact H].
Defined.

(** X2.  A value other than [null] that [safeJsonParse] returns is the
    decoding of the text, the text is within the size limit and no value
    of the tree lies deeper than the depth limit. *)
Theorem safeJsonParse_within_limits text maxSize maxDepth :
  safeJsonParse text maxSize maxDepth <> JNull ->
  JSON_parse text = Some (safeJsonParse text maxSize maxDepth) /\
  blob_size text <= maxSize /\
  enclosing (safeJsonParse text maxSize maxDepth) <= maxDepth.
Proof.
unfold safeJsonParse, checkJsonSize.
destruct (Z.leb_spec (blob_size text) maxSize) as [Hle|Hgt]; [|done].
cbn [negb]. destruct (JSON_parse text) as [v|]; [|done].
destruct (checkJsonDepth v maxDepth 0) eqn:Hc; [|done].
apply checkJsonDepth_spec in Hc. cbn [negb]. intros _.
repeat apply conj; [done | done | lia].
Qed.

Lemma safeJsonParse_within_limits_witness :
  safeJsonParse (js "[[2]]") 5 2 <> JNull /\
  enclosing (safeJsonParse (js "[[2]]") 5 2) <= 2.
Proof.
assert (H : safeJsonParse (js "[[2]]") 5 2 <> JNull) by (vm_compute; discriminate).
split; [exact H|].
apply (safeJsonParse_within_limits (js "[[2]]") 5 2 H).
Defined.

(** The byte size is at least the number of code units and at most three
    times that number. *)
Lemma blob_size_bounds s :
  Z.of_nat (length s) <= blob_size s <= 3 * Z.of_nat (length s).
Proof.
remember (length s) as n eqn:Hn. revert s Hn.
induction n as [n IH] using lt_wf_ind. intros s ->.
destruct s as [|c r]; [done|].
assert (IHr := IH (length r) ltac:(simpl; lia) r eq_refl).
cbn [blob_size length].
destruct (c <? 128)%N; [lia|]. destruct (c <? 2048)%N; [lia|].
destruct (is_high_surrogate c); [|lia].
destruct r as [|c2 r2]; [simpl; lia|].
destruct (is_low_surrogate c2); [|lia].
assert (IHr2 := IH (length r2) ltac:(simpl; lia) r2 eq_refl).
cbn [length] in *. lia.
Qed.

(** X3.  A text with more code units than [maxSize] is rejected whatever
    it contains and whatever the depth limit. *)
Theorem safeJsonParse_too_long text maxSize maxDepth :
  maxSize < Z.of_nat (length text) ->
  safeJsonParse text maxSize maxDepth = JNull.
Proof.
intros Hlen. unfold safeJsonParse, checkJsonSize.
pose proof (blob_size_bounds text) as Hb.
destruct (Z.leb_spec (blob_size text) maxSize); [lia|done].
Qed.

Lemma safeJsonParse_too_long_witness :
  3 < Z.of_nat (length (js "[1,2]")) /\
  safeJsonParse (js "[1,2]") 3 DEFAULT_MAX_JSON_DEPTH = JNull.
Proof.
assert (H : 3 < Z.of_nat (length (js "[1,2]"))) by (vm_compute; reflexivity).
split; [exact H|].
apply (safeJsonParse_too_long (js "[1,2]") 3 DEFAULT_MAX_JSON_DEPTH H).
Defined.

Lemma blob_size_utf8_witness :
  Forall (fun c => (c < 65536)%N) [233; 55357; 56832; 56832]%N /\
  blob_size [233; 55357; 56832; 56832]%N
    = Z.of_nat (length (utf8_encode [233; 55357; 56832; 56832]%N)).
Proof.
assert (H : Forall (fun c => (c < 65536)%N) [233; 55357; 56832; 56832]%N)
  by (repeat constructor).
split; [exact H|].
apply (blob_size_utf8 [233; 55357; 56832; 56832]%N H).
Defined.
End DecoderLimits.

(** ** Frame parser: white space and rejected payloads *)

Section FrameParserMore.
Implicit Types (line s ws : jsstring) (o : ISSEParserOptions).

Lemma trimStart_spaces ws s :
  Forall (fun c => is_js_space c = true) ws -> trimStart (ws ++ s) = trimStart s.
Proof. induction 1 as [|c ws Hc _ IH]; simpl; [done|]. by rewrite Hc. Qed.

Lemma trimStart_app s t :
  trimStart s <> [] -> trimStart (s ++ t) = trimStart s ++ t.
Proof.
induction s as [|c s IH]; simpl; [done|].
destruct (is_js_space c); [exact IH | done].
Qed.

Lemma trimStart_all_space s :
  trimStart s = [] -> Forall (fun c => is_js_space c = true) s.
Proof.
induction s as [|c s IH]; simpl; [constructor|].
destruct (is_js_space c) eqn:Hc; [|done]. intros H. constructor; auto.
Qed.

Lemma trimEnd_spaces s ws :
  Forall (fun c => is_js_space c = true) ws -> trimEnd (s ++ ws) = trimEnd s.
Proof.
intros Hws. unfold trimEnd. rewrite rev_app_distr, trimStart_spaces; [done|].
rewrite Forall_forall in *. intros c Hc. apply Hws.
rewrite list_elem_of_In in *. by apply in_rev.
Qed.

(** Trimming undoes any white space put around a text. *)
Lemma trim_spaces ws1 s ws2 :
  Forall (fun c => is_js_space c = true) ws1 ->
  Forall (fun c => is_js_space c = true) ws2 ->
  trim (ws1 ++ s ++ ws2) = trim s.
Proof.
intros H1 H2. unfold trim. rewrite trimStart_spaces by done.
destruct (trimStart s) as [|c t] eqn:Hs.
- apply trimStart_all_space in Hs.
  rewrite <- (app_nil_r (s ++ ws2)), trimStart_spaces; [done|].
  by apply Forall_app.
- rewrite trimStart_app by (by rewrite Hs). rewrite Hs. by apply trimEnd_spaces.
Qed.

(** X5.  White space around a line, such as the carriage return a CRLF
    stream leaves at its end, does not change what [parseSSELine]
    returns. *)
Theorem parseSSELine_ignores_outer_space ws1 line ws2 o :
  Forall (fun c => is_js_space c = true) ws1 ->
  Forall (fun c => is_js_space c = true) ws2 ->
  parseSSELine (ws1 ++ line ++ ws2) o = parseSSELine line o.
Proof. intros H1 H2. unfold parseSSELine. by rewrite trim_spaces. Qed.

Lemma parseSSELine_ignores_outer_space_witness :
  Forall (fun c => is_js_space c = true) (js " ") /\
  Forall (fun c => is_js_space c = true) [13%N] /\
  parseSSELine (js " " ++ js "data: hello" ++ [13%N]) no_options
    = parseSSELine (js "data: hello") no_options.
Proof.
assert (H1 : Forall (fun c => is_js_space c = true) (js " ")) by (repeat constructor).
assert (H2 : Forall (fun c => is_js_space c = true) [13%N]) by (repeat constructor).
split; [exact H1|]. split; [exact H2|].
apply (parseSSELine_ignores_outer_space (js " ") (js "data: hello") [13%N]
         no_options H1 H2).
Defined.

(** X6.  A non-empty payload that the guarded decoder rejects for its
    size or for its depth is not dropped: the line gives the payload
    itself, as a string. *)
Theorem parseSSELine_rejected_payload_raw line o :
  default true (parseJson o) = true ->
  startsWith (trim line) (js ":") = false ->
  startsWith (trim line) (default (js "data") (dataField o) ++ js ":") = true ->
  payload_of line o <> js "[DONE]" ->
  payload_of line o <> [] ->
  (default DEFAULT_MAX_JSON_SIZE (maxJsonSize o) < blob_size (payload_of line o) \/
   exists v, JSON_parse (payload_of line o) = Some v /\
             default DEFAULT_MAX_JSON_DEPTH (maxJsonDepth o) < enclosing v) ->
  parseSSELine line o = JString (payload_of line o).
Proof.
intros Hjson Hc Hp Hdone Hne Hrej.
assert (Ht : truthy_str (trim line) = true).
{ destruct (trim line); [|done]. apply startsWith_nil_l in Hp.
  by destruct (default (js "data") (dataField o)). }
unfold parseSSELine. rewrite Ht, Hc, Hp, Hjson. cbn [negb orb].
change (trim (slice_from (trim line)
                (length (default (js "data") (dataField o) ++ js ":"))))
  with (payload_of line o).
destruct (str_eqb (payload_of line o) (js "[DONE]")) eqn:He;
  [by apply str_eqb_eq in He|].
assert (Hnull : safeJsonParse (payload_of line o)
                  (default DEFAULT_MAX_JSON_SIZE (maxJsonSize o))
                  (default DEFAULT_MAX_JSON_DEPTH (maxJsonDepth o)) = JNull).
{ unfold safeJsonParse, checkJsonSize. destruct Hrej as [Hsize|(v & Hv & Hdepth)].
  - destruct (Z.leb_spec (blob_size (payload_of line o))
                (default DEFAULT_MAX_JSON_SIZE (maxJsonSize o))); [lia|done].
  - destruct (negb _); [done|]. rewrite Hv.
    destruct (checkJsonDepth v _ 0) eqn:Hd; [|done].
    apply checkJsonDepth_spec in Hd. lia. }
rewrite Hnull. destruct (payload_of line o); done.
Qed.

Lemma parseSSELine_rejected_payload_raw_witness :
  parseSSELine (js "data: [1,2,3]")
    {| dataField := None; parseJson := None; maxJsonSize := Some 4;
       maxJsonDepth := None |}
  = JString (js "[1,2,3]").
Proof.
apply (parseSSELine_rejected_payload_raw (js "data: [1,2,3]")
         {| dataField := None; parseJson := None; maxJsonSize := Some 4;
            maxJsonDepth := None |});
  [reflexivity | reflexivity | reflexivity
  | vm_compute; discriminate | vm_compute; discriminate
  | left; vm_compute; reflexivity].
Defined.
End FrameParserMore.

(** ** Line splitter and stream driver: what reaches the callbacks *)

Section DriverMore.
Context {St : Type}.
Variable adapter : St -> JValue -> St * option IStreamEvent.
Implicit Types (p : SSEParser) (chunks : list jsstring) (st : St).

(** X7.  A chunk that brings no line feed is only buffered: nothing is
    handed to [onData]. *)
Theorem feed_without_line_feed (o : option ISSEParserOptions) p (chunk : jsstring) :
  LF ∉ buffer p ++ chunk ->
  feed o p chunk = ([], {| buffer := buffer p ++ chunk |}).
Proof.
intros Hn. unfold feed.
rewrite (feed_lines_join p chunk [] (buffer p ++ chunk)); [done | constructor | done | done].
Qed.

Lemma feed_without_line_feed_witness :
  (LF ∉ buffer createSSEParser ++ js "data: {") /\
  feed None createSSEParser (js "data: {")
    = ([], {| buffer := buffer createSSEParser ++ js "data: {" |}).
Proof.
assert (H : LF ∉ buffer createSSEParser ++ js "data: {").
{ vm_compute. intros Hin. repeat (apply elem_of_cons in Hin as [Hin|Hin]; [discriminate|]).
  by apply elem_of_nil in Hin. }
split; [exact H|].
apply (feed_without_line_feed None createSSEParser (js "data: {") H).
Defined.

Lemma on_data_app st (values1 values2 : list JValue) :
  on_data adapter st (values1 ++ values2) =
  let '(cbs1, st1) := on_data adapter st values1 in
  let '(cbs2, st2) := on_data adapter st1 values2 in
  (cbs1 ++ cbs2, st2).
Proof.
revert st. induction values1 as [|v values1 IH]; intros st; cbn [app on_data].
- by destruct (on_data adapter st values2).
- destruct (adapter st v) as [st1 e]. rewrite IH.
  destruct (on_data adapter st1 values1) as [cbs1 st2].
  destruct (on_data adapter st2 values2) as [cbs2 st3].
  by destruct e.
Qed.

(** The loop over reads that begin with chunks: the chunks are fed in
    order, then the loop goes on with what follows them. *)
Lemma read_loop_chunks chunks (reads : list ReadResult) p st :
  read_loop adapter (map ReadChunk chunks ++ reads) p st =
  let '(values, p1) := feed_all None p chunks in
  let '(cbs, st1) := on_data adapter st values in
  let '(cbs', thrown) := read_loop adapter reads p1 st1 in
  (cbs ++ cbs', thrown).
Proof.
revert p st. induction chunks as [|c chunks IH]; intros p st;
  cbn [map app read_loop feed_all on_data].
- by destruct (read_loop adapter reads p st).
- destruct (feed None p c) as [values p1].
  destruct (on_data adapter st values) as [cbs1 st1] eqn:Hd.
  rewrite IH. destruct (feed_all None p1 chunks) as [values' p2].
  rewrite on_data_app, Hd.
  destruct (on_data adapter st1 values') as [cbs2 st2].
  destruct (read_loop adapter reads p2 st2) as [cbs3 thrown].
  by rewrite app_assoc.
Qed.

Lemma feed_all_concat_fresh chunks :
  feed_all None createSSEParser chunks = feed None createSSEParser (concat chunks).
Proof.
rewrite feed_all_lines, feed_lines_all_concat by apply not_elem_of_nil.
unfold feed. by destruct (feed_lines createSSEParser (concat chunks)).
Qed.

(** X8.  For a successful response whose body arrives in any number of
    chunks and then ends, the driver makes the [onEvent] calls of the whole
    text fed at once and then calls [onComplete]: the callbacks depend on
    the text of the body only, not on how it was cut. *)
Theorem streamSSE_chunking (response : Response) chunks
  (later : list ReadResult) st :
  resp_ok response = true ->
  resp_body response = Some (map ReadChunk chunks ++ ReadDone :: later) ->
  streamSSE adapter (FetchResolves response) st
  = (on_data adapter st (feed None createSSEParser (concat chunks)).1).1
    ++ [OnComplete].
Proof.
intros Hok Hbody. unfold streamSSE. rewrite Hok, Hbody. cbn [negb].
rewrite read_loop_chunks, feed_all_concat_fresh.
destruct (feed None createSSEParser (concat chunks)) as [values p1]. cbn [fst].
destruct (on_data adapter st values) as [cbs st1]. reflexivity.
Qed.

Lemma join_lf_tail_nil (lines : list jsstring) (t text : jsstring) :
  join_lf lines ++ t = text ++ [LF] -> LF ∉ t -> t = [].
Proof.
intros Heq Hn. destruct t as [|c t] using rev_ind; [done|].
rewrite !app_assoc in Heq. apply app_inj_tail in Heq as [_ ->].
exfalso. apply Hn. apply elem_of_app. right. by left.
Qed.

(** What follows the last line feed of a text is kept in the buffer and
    adds nothing to what is handed to [onData]. *)
Lemma feed_unterminated_tail (o : option ISSEParserOptions) p (text tail : jsstring) :
  LF ∉ tail ->
  (feed o p (text ++ [LF] ++ tail)).1 = (feed o p (text ++ [LF])).1.
Proof.
intros Htail. unfold feed.
destruct (feed_lines_decompose p (text ++ [LF])) as (lines & t & Hf & Hj & Hl & Ht).
rewrite Hf. rewrite app_assoc in Hj.
assert (t = []) as -> by (eapply join_lf_tail_nil; eauto).
rewrite (feed_lines_join p (text ++ [LF] ++ tail) lines tail); [done..|].
rewrite app_nil_r in Hj. by rewrite !app_assoc, Hj.
Qed.

(** X9.  The driver never delivers a last line that the body does not
    end with a line feed: when the stream is done, what follows the last
    line feed is left in the buffer, and the callbacks are those of the
    body cut off after that line feed. *)
Theorem streamSSE_drops_unterminated_line (response response' : Response)
  chunks chunks' (text tail : jsstring) st :
  resp_ok response = true -> resp_ok response' = true ->
  resp_body response = Some (map ReadChunk chunks ++ [ReadDone]) ->
  resp_body response' = Some (map ReadChunk chunks' ++ [ReadDone]) ->
  concat chunks = text ++ [LF] ++ tail ->
  concat chunks' = text ++ [LF] ->
  LF ∉ tail ->
  streamSSE adapter (FetchResolves response) st
  = streamSSE adapter (FetchResolves response') st.
Proof.
intros Hok Hok' Hb Hb' Hc Hc' Htail. unfold streamSSE.
rewrite Hok, Hok', Hb, Hb'. cbn [negb].
rewrite !read_loop_chunks, !feed_all_concat_fresh, Hc, Hc'.
pose proof (feed_unterminated_tail None createSSEParser text tail Htail) as Hf.
destruct (feed None createSSEParser (text ++ [LF] ++ tail)) as [values p1].
destruct (feed None createSSEParser (text ++ [LF])) as [values' p1'].
simpl in Hf. subst values'.
destruct (on_data adapter st values) as [cbs st1]. reflexivity.
Qed.

(** The callbacks of the read loop are [onEvent] calls, followed by
    [onComplete] exactly when the loop ended on a finished stream. *)
Lemma read_loop_shape (reads : list ReadResult) p st :
  exists events : list IStreamEvent,
    (read_loop adapter reads p st).1 = map OnEvent events
    \/ ((read_loop adapter reads p st).1 = map OnEvent events ++ [OnComplete]
        /\ (read_loop adapter reads p st).2 = None).
Proof.
assert (Hdata : forall values st, exists events,
          (on_data adapter st values).1 = map OnEvent events).
{ intros values. induction values as [|v values IH]; intros st'; cbn [on_data].
  - by exists [].
  - destruct (adapter st' v) as [st1 e]. destruct (IH st1) as [evs Hevs].
    destruct (on_data adapter st1 values) as [cbs st2]. simpl in Hevs.
    destruct e as [e|]; [exists (e :: evs) | exists evs]; simpl; by rewrite Hevs. }
revert p st. induction reads as [|rd reads IH]; intros p st.
- exists []. by left.
- destruct rd as [chunk| |e]; cbn [read_loop].
  + destruct (feed None p chunk) as [values p1].
    destruct (Hdata values st) as [evs Hevs].
    destruct (on_data adapter st values) as [cbs st1]. simpl in Hevs.
    destruct (IH p1 st1) as [evs' Hrest].
    destruct (read_loop adapter reads p1 st1) as [cbs' thrown]. simpl in *.
    exists (evs ++ evs'). rewrite map_app, Hevs.
    destruct Hrest as [->|[-> ->]]; [by left|right]. by rewrite app_assoc.
  + exists []. by right.
  + exists []. by left.
Qed.

(** X10.  Whatever the platform answers, a run of the driver calls
    [onEvent] some number of times and then at most one of [onComplete]
    and [onError], once, as its last callback. *)
Theorem streamSSE_terminal_callback (fetch : FetchResult) st :
  exists (events : list IStreamEvent) (last_call : list Callback),
    streamSSE adapter fetch st = map OnEvent events ++ last_call /\
    (last_call = [] \/ last_call = [OnComplete] \/
     exists name message, last_call = [OnError name message]).
Proof.
assert (Herr : forall e, exists name message,
          [as_Error e] = [OnError name message]).
{ intros [n m|t]; simpl; eauto. }
unfold streamSSE. destruct fetch as [e|response].
{ exists [], [as_Error e]. split; [done|]. right. right. apply Herr. }
destruct (negb (resp_ok response)).
{ destruct (resp_text response) as [e|errorText].
  - exists [], [as_Error e]. split; [done|]. right. right. apply Herr.
  - eexists [], _. split; [reflexivity|]. right. right. eauto. }
destruct (resp_body response) as [reads|].
2: { eexists [], _. split; [reflexivity|]. right. right. eauto. }
destruct (read_loop_shape reads createSSEParser st) as [events Hshape].
destruct (read_loop adapter reads createSSEParser st) as [cbs thrown].
simpl in Hshape. destruct Hshape as [->|[-> ->]].
- destruct thrown as [e|].
  + destruct (is_abort e).
    * exists events, [OnComplete]. auto.
    * exists events, [as_Error e]. split; [done|]. right. right. apply Herr.
  + exists events, []. split; [by rewrite app_nil_r | by left].
- exists events, [OnComplete]. auto.
Qed.

(** X11.  When a read fails with an error that is not an abort, the
    events of the chunks read before it have been delivered, and the
    driver then calls [onError] with that error and does not call
    [onComplete]. *)
Theorem streamSSE_read_error (response : Response) chunks
  (e : Thrown) (later : list ReadResult) st :
  resp_ok response = true ->
  resp_body response = Some (map ReadChunk chunks ++ ReadRejects e :: later) ->
  is_abort e = false ->
  streamSSE adapter (FetchResolves response) st
  = (on_data adapter st (feed None createSSEParser (concat chunks)).1).1
    ++ [as_Error e].
Proof.
intros Hok Hbody Habort. unfold streamSSE. rewrite Hok, Hbody. cbn [negb].
rewrite read_loop_chunks, feed_all_concat_fresh.
destruct (feed None createSSEParser (concat chunks)) as [values p1]. cbn [fst].
destruct (on_data adapter st values) as [cbs st1].
cbn [read_loop fst]. rewrite app_nil_r, Habort. done.
Qed.

End DriverMore.

Lemma streamSSE_chunking_witness :
  streamSSE plain_text_adapter
    (FetchResolves {| resp_ok := true; resp_status := 200; resp_text := inr [];
                      resp_body := Some (map ReadChunk [js "da"; js "ta: 1"]
                                           ++ ReadDone :: []) |})  tt
  = (on_data plain_text_adapter tt
       (feed None createSSEParser (concat [js "da"; js "ta: 1"])).1).1
    ++ [OnComplete].
Proof.
apply (streamSSE_chunking plain_text_adapter
         {| resp_ok := true; resp_status := 200; resp_text := inr [];
            resp_body := Some (map ReadChunk [js "da"; js "ta: 1"]
                                 ++ ReadDone :: []) |}
         [js "da"; js "ta: 1"] [] tt); reflexivity.
Defined.

Lemma streamSSE_drops_unterminated_line_witness :
  streamSSE plain_text_adapter
    (FetchResolves {| resp_ok := true; resp_status := 200; resp_text := inr [];
                      resp_body := Some (map ReadChunk [js "data: 1" ++ [LF] ++ js "data: 2"]
                                           ++ [ReadDone]) |})  tt
  = streamSSE plain_text_adapter
      (FetchResolves {| resp_ok := true; resp_status := 200; resp_text := inr [];
                        resp_body := Some (map ReadChunk [js "data: 1" ++ [LF]]
                                             ++ [ReadDone]) |}) tt.
Proof.
apply (streamSSE_drops_unterminated_line plain_text_adapter _ _
         [js "data: 1" ++ [LF] ++ js "data: 2"] [js "data: 1" ++ [LF]]
         (js "data: 1") (js "data: 2") tt);
  try reflexivity.
vm_compute. intros Hin.
repeat (apply elem_of_cons in Hin as [Hin|Hin]; [discriminate|]).
by apply elem_of_nil in Hin.
Defined.

Lemma streamSSE_read_error_witness :
  streamSSE plain_text_adapter
    (FetchResolves {| resp_ok := true; resp_status := 200; resp_text := inr [];
                      resp_body := Some (map ReadChunk [js "x"]
                                           ++ ReadRejects (ThrownOther (js "reset")) :: []) |})
     tt
  = (on_data plain_text_adapter tt (feed None createSSEParser (concat [js "x"])).1).1
    ++ [as_Error (ThrownOther (js "reset"))].
Proof.
apply (streamSSE_read_error plain_text_adapter
         {| resp_ok := true; resp_status := 200; resp_text := inr [];
            resp_body := Some (map ReadChunk [js "x"]
                                 ++ ReadRejects (ThrownOther (js "reset")) :: []) |}
         [js "x"] (ThrownOther (js "reset")) [] tt); reflexivity.
Defined.

(** ** Provider adapters: reassembly in general *)

Section AdaptersMore.
Implicit Types (index : option Z) (name fragment : jsstring)
  (id : option jsstring) (fragments : list jsstring).

Lemma map_get_set_eq {V} (m : list (Z * V)) k v :
  map_get (map_set m k v) k = Some v.
Proof.
induction m as [|[k' v'] m IH]; simpl.
- by rewrite Z.eqb_refl.
- destruct (Z.eqb_spec k' k) as [->|Hne]; simpl.
  + by rewrite Z.eqb_refl.
  + by destruct (Z.eqb_spec k' k).
Qed.

Lemma map_get_set_ne {V} (m : list (Z * V)) k k' v :
  k <> k' -> map_get (map_set m k v) k' = map_get m k'.
Proof.
intros Hne. induction m as [|[k0 v0] m IH]; simpl.
- by destruct (Z.eqb_spec k k').
- destruct (Z.eqb_spec k0 k) as [->|Hk]; simpl.
  + by destruct (Z.eqb_spec k k').
  + by rewrite IH.
Qed.

(** Setting a key keeps the keys there are, in their order, and adds at
    most the new key at the end. *)
Lemma map_set_keys {V} (m : list (Z * V)) k v :
  exists more, (map_set m k v).*1 = m.*1 ++ more /\ (length more <= 1)%nat.
Proof.
induction m as [|[k' v'] m (more & IH & Hlen)]; simpl.
- exists [k]. split; [done | simpl; lia].
- destruct (Z.eqb_spec k' k) as [->|Hne]; simpl.
  + exists []. split; [by rewrite app_nil_r | simpl; lia].
  + exists more. split; [exact (f_equal (cons k') IH) | done].
Qed.

Lemma map_set_present_length {V} (m : list (Z * V)) k v v' :
  map_get m k = Some v' -> length (map_set m k v) = length m.
Proof.
induction m as [|[k0 v0] m IH]; simpl; [done|].
destruct (Z.eqb_spec k0 k); simpl; [done|]. intros H. by rewrite IH.
Qed.

Lemma map_delete_present_length {V} (m : list (Z * V)) k v :
  map_get m k = Some v -> S (length (map_delete m k)) = length m.
Proof.
induction m as [|[k0 v0] m IH]; simpl; [done|].
destruct (Z.eqb_spec k0 k); simpl; [done|]. intros H. by rewrite IH.
Qed.

Lemma feed_frames_app {St} (adapter : St -> RawEvent -> St * option IStreamEvent)
  (st : St) (frames1 frames2 : list RawEvent) :
  feed_frames adapter st (frames1 ++ frames2) =
  let '(es1, st1) := feed_frames adapter st frames1 in
  let '(es2, st2) := feed_frames adapter st1 frames2 in
  (es1 ++ es2, st2).
Proof.
revert st. induction frames1 as [|f frames1 IH]; intros st; cbn [app feed_frames].
- by destruct (feed_frames adapter st frames2).
- destruct (adapter st f) as [st1 e]. rewrite IH.
  destruct (feed_frames adapter st1 frames1) as [es1 st2].
  by destruct (feed_frames adapter st2 frames2).
Qed.




(** What the loop over [tool_calls] returns is a [tool_start]. *)
Lemma openai_loop_returns_start (tool_calls : list IOpenAIToolCall) (st : OpenAIState) :
  only_tokens (openai_tool_calls_loop tool_calls st).2 = None.
Proof.
revert st. induction tool_calls as [|tc tool_calls IH]; intros st;
  cbn [openai_tool_calls_loop]; [done|].
destruct (truthy_opt (tc_function tc ≫= fn_name)); [done|]. apply IH.
Qed.

(** X13.  The text-only OpenAI adapter emits exactly the text tokens of
    the stateful adapter, and a frame on which it emits leaves the state of
    the stateful adapter unchanged, tool calls in the same frame
    included. *)
Theorem openAITextAdapter_agrees (st : OpenAIState) (rawEvent : RawEvent) :
  openAITextAdapter rawEvent = only_tokens (openai_adapter st rawEvent).2 /\
  match openAITextAdapter rawEvent with
  | Some _ => (openai_adapter st rawEvent).1 = st
  | None => True
  end.
Proof.
destruct rawEvent as [|chunk|event]; [done| |done].
unfold openAITextAdapter, openai_adapter.
destruct (chunk_choices chunk ≫= head) as [choice|]; [|done]. cbn [mbind option_bind].
destruct (truthy_opt (choice_delta choice ≫= delta_content)); [done|].
split; [|done].
pose proof (openai_loop_returns_start) as Hloop.
destruct (choice_delta choice ≫= delta_tool_calls) as [tcs|].
- specialize (Hloop tcs st).
  destruct (openai_tool_calls_loop tcs st) as [st1 [e|]]; cbn [snd] in *; [by rewrite Hloop|].
  destruct (is_str _ _); [|done]. by destruct st1 as [|[k s] rest].
- cbn [snd]. destruct (is_str _ _); [|done]. by destruct st as [|[k s] rest].
Qed.

(** X14.  A fragment for a slot in which no call has been recorded is
    dropped: the adapter emits nothing and its state is unchanged. *)
Theorem openai_fragment_without_call (st : OpenAIState) index fragment :
  map_get st (default 0 index) = None ->
  openai_adapter st (arguments_frame index fragment) = (st, None).
Proof.
intros Hget. unfold openai_adapter, arguments_frame, openai_frame.
cbn -[map_get]. destruct fragment; cbn -[map_get]; [done|]. by rewrite Hget.
Qed.

Lemma openai_fragment_without_call_witness :
  map_get createOpenAIAdapter (default 0 (Some 2)) = None /\
  openai_adapter createOpenAIAdapter (arguments_frame (Some 2) (js "{}"))
    = (createOpenAIAdapter, None).
Proof.
split; [reflexivity|].
apply (openai_fragment_without_call createOpenAIAdapter (Some 2) (js "{}")).
reflexivity.
Defined.

Lemma openai_loop_keys (tool_calls : list IOpenAIToolCall) (st : OpenAIState) :
  exists more, (openai_tool_calls_loop tool_calls st).1.*1 = st.*1 ++ more.
Proof.
revert st. induction tool_calls as [|tc tool_calls IH]; intros st;
  cbn [openai_tool_calls_loop].
- exists []. by rewrite app_nil_r.
- destruct (truthy_opt (tc_function tc ≫= fn_name)).
  + cbn [fst]. destruct (map_set_keys st (default 0 (tc_index tc))
      {| tcs_id := default (js "tool_" ++ Z_to_js (default 0 (tc_index tc))) (tc_id tc);
         tcs_name := default [] (tc_function tc ≫= fn_name);
         tcs_arguments := default [] (tc_function tc ≫= fn_arguments) |})
      as (more & Hk & _). eauto.
  + destruct (truthy_opt (tc_function tc ≫= fn_arguments)); [|apply IH].
    destruct (map_get st (default 0 (tc_index tc))) as [existing|]; [|apply IH].
    destruct (map_set_keys st (default 0 (tc_index tc))
      {| tcs_id := tcs_id existing; tcs_name := tcs_name existing;
         tcs_arguments := tcs_arguments existing
                          ++ default [] (tc_function tc ≫= fn_arguments) |})
      as (more & Hk & _).
    destruct (IH (map_set st (default 0 (tc_index tc))
      {| tcs_id := tcs_id existing; tcs_name := tcs_name existing;
         tcs_arguments := tcs_arguments existing
                          ++ default [] (tc_function tc ≫= fn_arguments) |}))
      as (more' & Hk').
    exists (more ++ more'). by rewrite Hk', Hk, app_assoc.
Qed.

(** X15.  The OpenAI adapter never forgets a slot: whatever frame it is
    given, the slots recorded before are still recorded afterwards, in the
    same order, possibly followed by new ones. *)
Theorem openai_slots_only_grow (st : OpenAIState) (rawEvent : RawEvent) :
  exists more, (openai_adapter st rawEvent).1.*1 = st.*1 ++ more.
Proof.
assert (Hsame : exists more : list Z, st.*1 = st.*1 ++ more)
  by (exists []; by rewrite app_nil_r).
destruct rawEvent as [|chunk|event]; [done| |done].
unfold openai_adapter.
destruct (chunk_choices chunk ≫= head) as [choice|]; [|done].
destruct (truthy_opt (choice_delta choice ≫= delta_content)); [done|].
assert (Hloop : exists more,
  (match choice_delta choice ≫= delta_tool_calls with
   | Some tool_calls => openai_tool_calls_loop tool_calls st
   | None => (st, None)
   end).1.*1 = st.*1 ++ more).
{ destruct (choice_delta choice ≫= delta_tool_calls); [apply openai_loop_keys | done]. }
destruct (match choice_delta choice ≫= delta_tool_calls with
          | Some tool_calls => openai_tool_calls_loop tool_calls st
          | None => (st, None)
          end) as [st1 returned].
cbn [fst] in Hloop. destruct returned; [done|].
destruct (is_str _ _); [|done]. by destruct st1 as [|[k s] rest].
Qed.
End AdaptersMore.

(** ** Anthropic adapter: deltas, parallel blocks, started and ended calls *)

Section AnthropicMore.
Implicit Types (index : option Z) (fragments : list jsstring)
  (st : AnthropicState).

Lemma map_set_get_same {V} (m : list (Z * V)) k v :
  map_get m k = Some v -> map_set m k v = m.
Proof.
induction m as [|[k0 v0] m IH]; simpl; [done|].
destruct (Z.eqb_spec k0 k); [by intros [= ->] | intros H; by rewrite IH].
Qed.

Lemma anthropic_tool_use_start_any st index (id name : option jsstring) :
  anthropic_adapter st (tool_use_start index id name) =
  (map_set st (default 0 index)
     {| tus_id := default (js "tool_" ++ Z_to_js (default 0 index)) id;
        tus_name := default (js "unknown_tool") name;
        tus_input := [] |},
   Some (tool_start_event (default (js "unknown_tool") name) None)).
Proof. reflexivity. Qed.

Lemma anthropic_block_stop_any st index :
  anthropic_adapter st (block_stop index) =
  match map_get st (default 0 index) with
  | Some toolUse =>
      (map_delete st (default 0 index),
       Some (tool_end_event (tus_name toolUse) (tus_input toolUse)))
  | None => (st, None)
  end.
Proof. reflexivity. Qed.

Lemma anthropic_block_stop_present st index (s : IToolUseState) :
  map_get st (default 0 index) = Some s ->
  anthropic_adapter st (block_stop index) =
  (map_delete st (default 0 index),
   Some (tool_end_event (tus_name s) (tus_input s))).
Proof. intros H. by rewrite anthropic_block_stop_any, H. Qed.

(** A delta for a recorded block is appended to its input and emits
    nothing. *)
Lemma anthropic_input_json_delta st index (s : IToolUseState) (fragment : jsstring) :
  map_get st (default 0 index) = Some s ->
  anthropic_adapter st (input_json_delta index fragment)
  = (map_set st (default 0 index)
       {| tus_id := tus_id s; tus_name := tus_name s;
          tus_input := tus_input s ++ fragment |}, None).
Proof.
intros Hget. unfold anthropic_adapter, input_json_delta.
cbn -[map_get map_set]. destruct fragment as [|c f]; cbn -[map_get map_set].
- rewrite app_nil_r. destruct s as [i n a]. cbn [tus_id tus_name tus_input].
  by rewrite map_set_get_same.
- by rewrite Hget.
Qed.

Lemma anthropic_input_json_delta_any st index (fragment : jsstring) :
  anthropic_adapter st (input_json_delta index fragment)
  = (match map_get st (default 0 index) with
     | Some s =>
         map_set st (default 0 index)
           {| tus_id := tus_id s; tus_name := tus_name s;
              tus_input := tus_input s ++ fragment |}
     | None => st
     end, None).
Proof.
destruct (map_get st (default 0 index)) as [s|] eqn:Hget.
- by apply anthropic_input_json_delta.
- unfold anthropic_adapter, input_json_delta.
  cbn -[map_get map_set]. destruct fragment as [|c f]; cbn -[map_get map_set];
    [done | by rewrite Hget].
Qed.

Lemma anthropic_deltas_accumulate index fragments (s : IToolUseState) :
  feed_frames anthropic_adapter [(default 0 index, s)]
    (map (input_json_delta index) fragments)
  = (map (fun _ => None) fragments,
     [(default 0 index,
       {| tus_id := tus_id s; tus_name := tus_name s;
          tus_input := tus_input s ++ concat fragments |})]).
Proof.
revert s. induction fragments as [|f fragments IH]; intros s;
  cbn [map feed_frames concat].
- rewrite app_nil_r. by destruct s.
- rewrite (anthropic_input_json_delta _ index s f)
    by (simpl; by rewrite Z.eqb_refl).
  cbn [map_set]. rewrite Z.eqb_refl, IH. cbn [tus_id tus_name tus_input].
  by rewrite app_assoc.
Qed.

Lemma feed_frames_cons {St} (adapter : St -> RawEvent -> St * option IStreamEvent)
  (st st1 : St) (frame : RawEvent) (frames : list RawEvent) (e : option IStreamEvent) :
  adapter st frame = (st1, e) ->
  feed_frames adapter st (frame :: frames)
  = (e :: (feed_frames adapter st1 frames).1, (feed_frames adapter st1 frames).2).
Proof.
intros H. cbn [feed_frames]. rewrite H.
by destruct (feed_frames adapter st1 frames).
Qed.

(** X16.  A tool-use block is reassembled from any number of
    [input_json_delta] events: after the start of the block each delta
    yields nothing, and the stop of the block yields one [tool_end] whose
    output is the deltas in arrival order, and leaves no slot behind. *)
Theorem anthropic_any_number_of_deltas index (id name : option jsstring) fragments :
  feed_frames anthropic_adapter createAnthropicAdapter
    (tool_use_start index id name
     :: map (input_json_delta index) fragments ++ [block_stop index])
  = (Some (tool_start_event (default (js "unknown_tool") name) None)
     :: map (fun _ => None) fragments
     ++ [Some (tool_end_event (default (js "unknown_tool") name)
                 (concat fragments))],
     []).
Proof.
rewrite (feed_frames_cons _ _ _ _ _ _ (anthropic_tool_use_start index id name)).
rewrite feed_frames_app, anthropic_deltas_accumulate.
rewrite (feed_frames_cons _ _ _ _ _ _ (anthropic_block_stop index _)).
reflexivity.
Qed.

(** X17.  Two tool-use blocks open at the same time at different indices
    do not mix: with their deltas interleaved, each block ends with its own
    deltas as output. *)
Theorem anthropic_parallel_blocks (i j : Z) (name1 name2 : jsstring)
  (a1 a2 b1 b2 : jsstring) :
  i <> j ->
  feed_frames anthropic_adapter createAnthropicAdapter
    [ tool_use_start (Some i) None (Some name1);
      tool_use_start (Some j) None (Some name2);
      input_json_delta (Some i) a1;
      input_json_delta (Some j) b1;
      input_json_delta (Some i) a2;
      input_json_delta (Some j) b2;
      block_stop (Some i);
      block_stop (Some j) ]
  = ([ Some (tool_start_event name1 None);
       Some (tool_start_event name2 None);
       None; None; None; None;
       Some (tool_end_event name1 (a1 ++ a2));
       Some (tool_end_event name2 (b1 ++ b2)) ],
     []).
Proof.
intros Hne.
assert (Hij : (i =? j) = false) by by apply Z.eqb_neq.
assert (Hji : (j =? i) = false) by (apply Z.eqb_neq; congruence).
unfold createAnthropicAdapter.
do 2 (erewrite feed_frames_cons by apply anthropic_tool_use_start_any;
      cbn [map_set default from_option id]; rewrite ?Hij).
do 4 (erewrite feed_frames_cons by apply anthropic_input_json_delta_any;
      cbn [map_get map_set default from_option id tus_id tus_name tus_input app];
      rewrite ?Z.eqb_refl, ?Hij;
      cbn [map_get map_set default from_option id tus_id tus_name tus_input app];
      rewrite ?Z.eqb_refl, ?Hij).
do 2 (erewrite feed_frames_cons
        by (apply anthropic_block_stop_present;
            cbn [map_get default from_option id];
            rewrite ?Z.eqb_refl, ?Hij; reflexivity);
      cbn [map_delete default from_option id tus_name tus_input];
      rewrite ?Z.eqb_refl, ?Hij).
reflexivity.
Qed.

Lemma anthropic_parallel_blocks_witness :
  (0 : Z) <> 1 /\
  (feed_frames anthropic_adapter createAnthropicAdapter
    [ tool_use_start (Some 0) None (Some (js "search"));
      tool_use_start (Some 1) None (Some (js "fetch"));
      input_json_delta (Some 0) (js "{x");
      input_json_delta (Some 1) (js "{y");
      input_json_delta (Some 0) (js "}");
      input_json_delta (Some 1) (js "}");
      block_stop (Some 0);
      block_stop (Some 1) ]).2 = [].
Proof.
assert (H : (0 : Z) <> 1) by lia.
split; [exact H|].
rewrite (anthropic_parallel_blocks 0 1 (js "search") (js "fetch")
           (js "{x") (js "}") (js "{y") (js "}") H).
reflexivity.
Defined.

(** One call of the adapter: a slot is added only together with a
    [tool_start], and a [tool_end] always removes a slot. *)
Lemma anthropic_step_balance st (rawEvent : RawEvent) :
  let '(st', e) := anthropic_adapter st rawEvent in
  (length st' + count_type tool_end [e]
   <= length st + count_type tool_start [e])%nat.
Proof.
unfold count_type.
destruct rawEvent as [|chunk|event]; [simpl; lia | simpl; lia |].
unfold anthropic_adapter.
destruct (str_eqb (a_type event) (js "content_block_start")).
{ destruct (a_content_block event) as [cb|]; [|simpl; lia].
  destruct (str_eqb (cb_type cb) (js "tool_use")); [|simpl; lia].
  match goal with |- context [map_set st ?k ?v] =>
    destruct (map_set_keys st k v) as (more & Hk & Hlen);
    apply (f_equal length) in Hk; rewrite length_app, !length_fmap in Hk end.
  cbn [List.filter has_type tool_start_event ev_type length]. lia. }
destruct (str_eqb (a_type event) (js "content_block_delta")).
{ destruct (is_str _ _ && truthy_opt _); [simpl; lia|].
  destruct (is_str _ _ && truthy_opt _); [|simpl; lia].
  destruct (map_get st (default 0 (a_index event))) as [existing|] eqn:Hget;
    [|simpl; lia].
  erewrite map_set_present_length by eauto. simpl. lia. }
destruct (str_eqb (a_type event) (js "content_block_stop")).
{ destruct (map_get st (default 0 (a_index event))) as [toolUse|] eqn:Hget;
    [|simpl; lia].
  apply map_delete_present_length in Hget.
  cbn [List.filter has_type tool_end_event ev_type length]. lia. }
destruct (str_eqb (a_type event) (js "error")); simpl; lia.
Qed.

Lemma count_type_cons t (e : option IStreamEvent) es :
  count_type t (e :: es) = (count_type t [e] + count_type t es)%nat.
Proof. unfold count_type. simpl. by destruct (has_type t e). Qed.

Lemma anthropic_run_balance (frames : list RawEvent) st :
  (length (feed_frames anthropic_adapter st frames).2
   + count_type tool_end (feed_frames anthropic_adapter st frames).1
   <= length st + count_type tool_start (feed_frames anthropic_adapter st frames).1)%nat.
Proof.
revert st. induction frames as [|f frames IH]; intros st; cbn [feed_frames].
- unfold count_type. simpl. lia.
- pose proof (anthropic_step_balance st f) as Hstep.
  destruct (anthropic_adapter st f) as [st1 e].
  specialize (IH st1).
  destruct (feed_frames anthropic_adapter st1 frames) as [es st2].
  cbn [fst snd] in *.
  rewrite (count_type_cons tool_end), (count_type_cons tool_start). lia.
Qed.

(** X18.  Whatever frames a fresh Anthropic adapter is fed, it never
    emits more [tool_end] events than it has emitted [tool_start] events;
    the difference is at least the number of blocks still open. *)
Theorem anthropic_ends_within_starts (frames : list RawEvent) :
  (length (feed_frames anthropic_adapter createAnthropicAdapter frames).2
   + count_type tool_end (feed_frames anthropic_adapter createAnthropicAdapter frames).1
   <= count_type tool_start
        (feed_frames anthropic_adapter createAnthropicAdapter frames).1)%nat.
Proof. apply (anthropic_run_balance frames createAnthropicAdapter). Qed.

(** X19.  Every text token of the stateful Anthropic adapter is emitted,
    unchanged, by the text-only adapter as well. *)
Theorem anthropicTextAdapter_covers_tokens st (rawEvent : RawEvent) (e : IStreamEvent) :
  only_tokens (anthropic_adapter st rawEvent).2 = Some e ->
  anthropicTextAdapter rawEvent = Some e.
Proof.
destruct rawEvent as [|chunk|event]; [done|done|].
unfold anthropic_adapter, anthropicTextAdapter.
destruct (str_eqb (a_type event) (js "content_block_start")) eqn:Hs.
{ apply str_eqb_eq in Hs. rewrite Hs.
  destruct (a_content_block event) as [cb|]; [|done].
  by destruct (str_eqb (cb_type cb) (js "tool_use")). }
destruct (str_eqb (a_type event) (js "content_block_delta")).
{ cbn [andb]. destruct (is_str (a_delta event ≫= d_type) (js "text_delta")).
  - cbn [andb]. destruct (truthy_opt (a_delta event ≫= d_text)); [by intros [= <-]|].
    cbn [andb]. destruct (is_str _ _ && truthy_opt _); [|done].
    by destruct (map_get _ _).
  - cbn [andb]. destruct (is_str _ _ && truthy_opt _); [|done].
    by destruct (map_get _ _). }
destruct (str_eqb (a_type event) (js "content_block_stop")).
{ by destruct (map_get _ _). }
by destruct (str_eqb (a_type event) (js "error")).
Qed.

Lemma anthropicTextAdapter_covers_tokens_witness :
  anthropicTextAdapter
    (RawAnthropic
       {| a_type := js "content_block_delta"; a_index := Some 0;
          a_content_block := None;
          a_delta := Some {| d_type := Some (js "text_delta");
                             d_text := Some (js "Hi"); d_partial_json := None |};
          a_error := None |})
  = Some (llm_token_event (js "Hi")).
Proof.
apply (anthropicTextAdapter_covers_tokens createAnthropicAdapter). reflexivity.
Defined.
End AnthropicMore.

(** ** Turn handling: capacity, accumulation, completion *)

Section TurnMore.
Implicit Types (h : ChatHook) (env : TurnEnv) (msgs : list IMessage)
  (events : list IStreamEvent).

Lemma trimMessages_positive maxMessages msgs :
  0 < maxMessages ->
  trimMessages maxMessages msgs = drop (length msgs - Z.to_nat maxMessages) msgs.
Proof.
intros Hpos. unfold trimMessages, slice_last.
destruct (Z.leb_spec maxMessages 0); [lia|]. cbn [orb].
destruct (Z.leb_spec (Z.of_nat (length msgs)) maxMessages); [|done].
by replace (length msgs - Z.to_nat maxMessages)%nat with 0%nat by lia.
Qed.

Lemma trimMessages_unlimited maxMessages msgs :
  maxMessages <= 0 -> trimMessages maxMessages msgs = msgs.
Proof.
intros Hle. unfold trimMessages. by destruct (Z.leb_spec maxMessages 0); [|lia].
Qed.

(** X20.  Under a positive capacity the trimmed history has at most
    [maxMessages] messages, it is the history with some of its oldest
    messages dropped, and its newest message is kept. *)
Theorem trimMessages_capacity maxMessages msgs :
  0 < maxMessages ->
  Z.of_nat (length (trimMessages maxMessages msgs)) <= maxMessages /\
  (exists k, trimMessages maxMessages msgs = drop k msgs) /\
  last (trimMessages maxMessages msgs) = last msgs.
Proof.
intros Hpos. rewrite trimMessages_positive by done.
split; [rewrite length_drop; lia|]. split; [eauto|].
destruct msgs as [|m msgs _] using rev_ind; [done|].
rewrite length_app. cbn [length].
rewrite drop_app_le by lia. by rewrite !last_snoc.
Qed.

Lemma trimMessages_capacity_witness :
  0 < 2 /\
  Z.of_nat (length (trimMessages 2
     [assistantMessage example_env; assistantMessage example_env;
      assistantMessage example_env])) <= 2.
Proof.
assert (H : 0 < 2) by lia. split; [exact H|].
apply (trimMessages_capacity 2
         [assistantMessage example_env; assistantMessage example_env;
          assistantMessage example_env] H).
Defined.

(** Trimming composes: trimming, appending and trimming again gives what
    trimming once after the append gives. *)
Lemma trimMessages_app maxMessages msgs (more : list IMessage) :
  trimMessages maxMessages (trimMessages maxMessages msgs ++ more)
  = trimMessages maxMessages (msgs ++ more).
Proof.
destruct (Z.leb_spec maxMessages 0) as [Hle|Hpos].
{ by rewrite !trimMessages_unlimited. }
rewrite !trimMessages_positive by done.
rewrite !length_app, length_drop.
destruct (Nat.le_gt_cases (length msgs) (Z.to_nat maxMessages)) as [Hfit|Hover].
- replace (length msgs - Z.to_nat maxMessages)%nat with 0%nat by lia.
  cbn [drop]. f_equal. lia.
- rewrite <- (drop_app_le msgs more) by lia. rewrite drop_drop. f_equal. lia.
Qed.

Lemma snoc2 {A} (l : list A) (x y : A) : l ++ [x; y] = (l ++ [x]) ++ [y].
Proof. by rewrite <- app_assoc. Qed.

Lemma sendMessage_messages maxMessages transport env (userInput : jsstring) h :
  trim userInput <> [] ->
  messages (sendMessage maxMessages transport env userInput h)
  = trimMessages maxMessages
      (messages h ++ [userMessage env userInput h; assistantMessage env]).
Proof.
intros Hinput. unfold sendMessage.
destruct (truthy_str (trim userInput)) eqn:Ht;
  [|by apply truthy_str_false in Ht]. cbn [negb messages].
rewrite trimMessages_app. by rewrite snoc2.
Qed.

Lemma sendMessage_ready maxMessages transport env (userInput : jsstring) h :
  trim userInput <> [] ->
  exists older,
    messages (sendMessage maxMessages transport env userInput h)
    = older ++ [streamed (assistantMessage env) []] /\
    older = removelast (messages (sendMessage maxMessages transport env userInput h)).
Proof.
intros Hinput.
assert (Hlast : last (messages (sendMessage maxMessages transport env userInput h))
                = Some (assistantMessage env)).
{ rewrite sendMessage_messages by done.
  destruct (Z.leb_spec maxMessages 0) as [Hle|Hpos].
  - rewrite trimMessages_unlimited by done.
    by rewrite snoc2, last_snoc.
  - rewrite trimMessages_positive by done.
    rewrite snoc2, (length_app _ [_]). cbn [length].
    rewrite drop_app_le by lia. by rewrite last_snoc. }
destruct (messages (sendMessage maxMessages transport env userInput h))
  as [|m ms _] using rev_ind; [done|].
rewrite last_snoc in Hlast. injection Hlast as ->.
exists ms. by rewrite removelast_last.
Qed.

(** X21.  After [sendMessage] with a non-blank input the history is the
    old history, the user message and the assistant placeholder, trimmed
    once; its last message is the placeholder, and under a positive
    capacity it holds at most [maxMessages] messages. *)
Theorem sendMessage_history maxMessages transport env (userInput : jsstring) h :
  trim userInput <> [] ->
  messages (sendMessage maxMessages transport env userInput h)
  = trimMessages maxMessages
      (messages h ++ [userMessage env userInput h; assistantMessage env]) /\
  last (messages (sendMessage maxMessages transport env userInput h))
  = Some (assistantMessage env) /\
  (0 < maxMessages ->
   Z.of_nat (length (messages (sendMessage maxMessages transport env userInput h)))
   <= maxMessages).
Proof.
intros Hinput. split; [by apply sendMessage_messages|]. split.
- destruct (sendMessage_ready maxMessages transport env userInput h Hinput)
    as (older & -> & _).
  by rewrite last_snoc.
- intros Hpos. rewrite sendMessage_messages, trimMessages_positive by done.
  rewrite length_drop. lia.
Qed.

Lemma sendMessage_history_witness :
  trim (js "hi") <> [] /\
  last (messages (sendMessage 1 StreamConfig example_env (js "hi") mounted))
  = Some (assistantMessage example_env).
Proof.
assert (H : trim (js "hi") <> []) by (vm_compute; discriminate).
split; [exact H|].
apply (sendMessage_history 1 StreamConfig example_env (js "hi") mounted H).
Defined.

(** The state of a turn into whose placeholder [a] the text [text] has
    been streamed, after the older messages [older]. *)
Lemma handleStreamEvent_streams (older : list IMessage) (a : IMessage)
  (text : jsstring) (event : IStreamEvent) h :
  msg_role a = assistant ->
  messages h = older ++ [streamed a text] ->
  accumulatedContentRef h = text ->
  currentTextSegmentRef h = text ->
  contentSegmentsRef h = match text with [] => [] | _ :: _ => [TextSegment text] end ->
  let text' := text ++ token_text [event] in
  let h' := handleStreamEvent event h in
  messages h' = older ++ [streamed a text'] /\
  accumulatedContentRef h' = text' /\
  currentTextSegmentRef h' = text' /\
  contentSegmentsRef h' = match text' with [] => [] | _ :: _ => [TextSegment text'] end /\
  isStreaming h' = isStreaming h /\ abortControllerRef h' = abortControllerRef h.
Proof.
intros Hrole Hm Hacc Hcur Hseg text' h'. subst text' h'.
unfold token_text. cbn [map concat]. rewrite app_nil_r.
destruct (is_token event) eqn:Htok.
2: { rewrite handleStreamEvent_no_token by done. rewrite app_nil_r.
     repeat apply conj; done. }
assert (Hc : truthy_opt (ev_content event) = true).
{ unfold is_token in Htok. by destruct (ev_type event). }
assert (Hstep : handleStreamEvent event h =
  let contentToAdd := default [] (ev_content event) in
  let accumulated := accumulatedContentRef h ++ contentToAdd in
  let current := currentTextSegmentRef h ++ contentToAdd in
  let segments := put_text_segment (contentSegmentsRef h) current in
  {| messages :=
       update_last_assistant (with_segments segments)
         (update_last_assistant (with_content accumulated) (messages h));
     isStreaming := isStreaming h; uploadedPdfs := uploadedPdfs h;
     accumulatedContentRef := accumulated; contentSegmentsRef := segments;
     currentTextSegmentRef := current;
     abortControllerRef := abortControllerRef h;
     aborted := aborted h; controllers := controllers h |}).
{ unfold handleStreamEvent, is_token in *. destruct (ev_type event); try done;
    by rewrite Hc. }
rewrite Hstep. clear Hstep. cbv zeta.
cbn [messages accumulatedContentRef currentTextSegmentRef contentSegmentsRef
     isStreaming abortControllerRef].
rewrite Hm, Hacc, Hcur, Hseg.
destruct (ev_content event) as [[|c cs]|]; try done. cbn [default from_option id].
assert (Hne : exists x xs, text ++ c :: cs = x :: xs)
  by (destruct text; simpl; eauto).
destruct Hne as (x & xs & Hx).
assert (Hput : put_text_segment
                 match text with [] => [] | _ :: _ => [TextSegment text] end
                 (text ++ c :: cs) = [TextSegment (text ++ c :: cs)])
  by by destruct text.
rewrite Hput, Hx.
repeat apply conj; try done.
unfold update_last_assistant. rewrite last_snoc.
assert (Hr : msg_role (streamed a text) = assistant) by by destruct text.
rewrite Hr, removelast_last, last_snoc.
cbn [with_content msg_role]. rewrite Hr, removelast_last.
f_equal. f_equal. unfold streamed. rewrite <- Hx.
destruct text; reflexivity.
Qed.

Lemma token_text_cons (e : IStreamEvent) events :
  token_text (e :: events) = token_text [e] ++ token_text events.
Proof. unfold token_text. cbn [map concat]. by rewrite app_nil_r. Qed.

Lemma deliver_streams events : forall (older : list IMessage) (a : IMessage)
  (text : jsstring) h,
  msg_role a = assistant ->
  messages h = older ++ [streamed a text] ->
  accumulatedContentRef h = text ->
  currentTextSegmentRef h = text ->
  contentSegmentsRef h = match text with [] => [] | _ :: _ => [TextSegment text] end ->
  let text' := text ++ token_text events in
  let h' := deliver events h in
  messages h' = older ++ [streamed a text'] /\
  accumulatedContentRef h' = text' /\
  currentTextSegmentRef h' = text' /\
  contentSegmentsRef h' = match text' with [] => [] | _ :: _ => [TextSegment text'] end /\
  isStreaming h' = isStreaming h /\ abortControllerRef h' = abortControllerRef h.
Proof.
induction events as [|e events IH]; intros older a text h Hrole Hm Hacc Hcur Hseg.
- cbv zeta. unfold deliver, token_text. cbn [foldl map concat]. rewrite app_nil_r.
  repeat apply conj; done.
- destruct (handleStreamEvent_streams older a text e h Hrole Hm Hacc Hcur Hseg)
    as (Hm1 & Hacc1 & Hcur1 & Hseg1 & Hs1 & Hab1).
  destruct (IH older a (text ++ token_text [e]) (handleStreamEvent e h)
              Hrole Hm1 Hacc1 Hcur1 Hseg1) as (Hm2 & Hacc2 & Hcur2 & Hseg2 & Hs2 & Hab2).
  cbv zeta. rewrite token_text_cons, app_assoc.
  change (deliver (e :: events) h) with (deliver events (handleStreamEvent e h)).
  rewrite Hs2, Hab2. repeat apply conj; done.
Qed.

(** X22.  While a turn streams, the message being built is kept in step
    with the events: after [sendMessage] and any events, the history is
    the history just after [sendMessage] with its placeholder replaced by
    the placeholder holding the text of all token events so far, both as
    content and as its single text segment, and the accumulated text in
    the refs is that same text. *)
Theorem deliver_accumulates maxMessages transport env (userInput : jsstring)
  events h :
  trim userInput <> [] ->
  let h0 := sendMessage maxMessages transport env userInput h in
  messages (deliver events h0)
  = removelast (messages h0) ++ [streamed (assistantMessage env) (token_text events)] /\
  accumulatedContentRef (deliver events h0) = token_text events /\
  currentTextSegmentRef (deliver events h0) = token_text events.
Proof.
intros Hinput h0.
destruct (sendMessage_ready maxMessages transport env userInput h Hinput)
  as (older & Hm & Holder).
fold h0 in Hm, Holder. rewrite <- Holder.
assert (Hrefs : accumulatedContentRef h0 = [] /\ currentTextSegmentRef h0 = [] /\
                contentSegmentsRef h0 = []).
{ subst h0. unfold sendMessage.
  destruct (truthy_str (trim userInput)) eqn:Ht;
    [done | by apply truthy_str_false in Ht]. }
destruct Hrefs as (Hacc & Hcur & Hseg).
destruct (deliver_streams events older (assistantMessage env) [] h0
            eq_refl Hm Hacc Hcur Hseg) as (H1 & H2 & H3 & _).
cbn [app] in *. repeat apply conj; done.
Qed.

Lemma deliver_accumulates_witness :
  trim (js "hi") <> [] /\
  messages (deliver [llm_token_event (js "Hel"); tool_start_event (js "t") None;
                     llm_token_event (js "lo")]
              (sendMessage 0 StreamConfig example_env (js "hi") mounted))
  = removelast (messages (sendMessage 0 StreamConfig example_env (js "hi") mounted))
    ++ [streamed (assistantMessage example_env)
          (token_text [llm_token_event (js "Hel"); tool_start_event (js "t") None;
                       llm_token_event (js "lo")])].
Proof.
assert (H : trim (js "hi") <> []) by (vm_compute; discriminate).
split; [exact H|].
apply (deliver_accumulates 0 StreamConfig example_env (js "hi")
         [llm_token_event (js "Hel"); tool_start_event (js "t") None;
          llm_token_event (js "lo")] mounted H).
Defined.

(** X23.  When the transport reports completion, finalizing finds the
    message already in step: the history is left as streaming built it,
    and the turn is no longer streaming nor abortable. *)
Theorem turn_onComplete_keeps_history maxMessages transport env
  (userInput : jsstring) events h :
  trim userInput <> [] ->
  let h1 := deliver events (sendMessage maxMessages transport env userInput h) in
  messages (turn_onComplete h1) = messages h1 /\
  isStreaming (turn_onComplete h1) = false /\
  abortControllerRef (turn_onComplete h1) = None.
Proof.
intros Hinput h1. split; [|done].
destruct (sendMessage_ready maxMessages transport env userInput h Hinput)
  as (older & Hm & _).
assert (Hrefs : accumulatedContentRef (sendMessage maxMessages transport env userInput h) = []
                /\ currentTextSegmentRef (sendMessage maxMessages transport env userInput h) = []
                /\ contentSegmentsRef (sendMessage maxMessages transport env userInput h) = []).
{ unfold sendMessage.
  destruct (truthy_str (trim userInput)) eqn:Ht;
    [done | by apply truthy_str_false in Ht]. }
destruct Hrefs as (Hacc & Hcur & Hseg).
destruct (deliver_streams events older (assistantMessage env) [] _
            eq_refl Hm Hacc Hcur Hseg) as (H1 & _ & H3 & H4 & _).
fold h1 in H1, H3, H4. cbn [app] in *.
unfold turn_onComplete, finalizeAssistantMessage. rewrite H3.
destruct (truthy_str (trim (token_text events))) eqn:Ht; [|done].
cbn [messages]. rewrite H1, H4.
destruct (token_text events) as [|c cs]; [done|].
unfold update_last_assistant. rewrite last_snoc. cbn [streamed with_segments msg_role
  with_content assistantMessage put_text_segment last removelast app].
by rewrite removelast_last.
Qed.

Lemma turn_onComplete_keeps_history_witness :
  trim (js "hi") <> [] /\
  messages (turn_onComplete
              (deliver [llm_token_event (js "Hello")]
                 (sendMessage 0 StreamConfig example_env (js "hi") mounted)))
  = messages (deliver [llm_token_event (js "Hello")]
                (sendMessage 0 StreamConfig example_env (js "hi") mounted)).
Proof.
assert (H : trim (js "hi") <> []) by (vm_compute; discriminate).
split; [exact H|].
apply (turn_onComplete_keeps_history 0 StreamConfig example_env (js "hi")
         [llm_token_event (js "Hello")] mounted H).
Defined.
End TurnMore.

(** ** Turn handling: after a cancel, a clear, and the uploads *)

Section TurnEdges.
Implicit Types (h : ChatHook) (env : TurnEnv) (msgs : list IMessage)
  (events : list IStreamEvent).

(** An event changes no history whose last message is not an assistant
    message. *)
Lemma handleStreamEvent_no_assistant (event : IStreamEvent) h :
  (forall m, last (messages h) = Some m -> msg_role m = user) ->
  messages (handleStreamEvent event h) = messages h.
Proof.
intros Hlast.
assert (Hupd : forall f, update_last_assistant f (messages h) = messages h).
{ intros f. unfold update_last_assistant.
  destruct (last (messages h)) as [m|] eqn:Hm; [|done].
  by rewrite (Hlast m eq_refl). }
unfold handleStreamEvent.
destruct (ev_type event); try done;
  (destruct (truthy_opt (ev_content event)); [|done]);
  cbn [messages]; by rewrite !Hupd.
Qed.

Lemma deliver_no_assistant events h :
  (forall m, last (messages h) = Some m -> msg_role m = user) ->
  messages (deliver events h) = messages h.
Proof.
revert h. induction events as [|e events IH]; intros h Hlast; [done|].
change (deliver (e :: events) h) with (deliver events (handleStreamEvent e h)).
pose proof (handleStreamEvent_no_assistant e h Hlast) as He.
rewrite IH; [done|]. by rewrite He.
Qed.

(** The history after a turn cancelled before its first token. *)
Lemma cancelled_messages maxMessages transport env (userInput : jsstring)
  events h :
  trim userInput <> [] ->
  Forall (fun e => is_token e = false) events ->
  messages (stopStreaming
              (deliver events (sendMessage maxMessages transport env userInput h)))
  = removelast (messages (sendMessage maxMessages transport env userInput h)).
Proof.
intros Hinput Hev. rewrite deliver_no_token by done.
destruct (sendMessage_ready maxMessages transport env userInput h Hinput)
  as (older & Hm & _).
unfold stopStreaming.
assert (Hab : abortControllerRef (sendMessage maxMessages transport env userInput h)
              = Some (controllers h)).
{ unfold sendMessage.
  destruct (truthy_str (trim userInput)) eqn:Ht;
    [done | by apply truthy_str_false in Ht]. }
rewrite Hab. cbn [messages]. rewrite Hm, last_snoc. done.
Qed.

(** X24.  After a turn has been cancelled before its first token, events
    that still arrive from the aborted request, tokens included, do not
    change the history. *)
Theorem late_events_after_cancel maxMessages transport env (userInput : jsstring)
  events (late : list IStreamEvent) h :
  trim userInput <> [] ->
  Forall (fun e => is_token e = false) events ->
  let cancelled :=
    stopStreaming (deliver events (sendMessage maxMessages transport env userInput h)) in
  messages (deliver late cancelled) = messages cancelled.
Proof.
intros Hinput Hev cancelled. apply deliver_no_assistant.
subst cancelled. rewrite cancelled_messages by done.
rewrite sendMessage_messages by done. intros m.
destruct (Z.leb_spec maxMessages 0) as [Hle|Hpos].
- rewrite trimMessages_unlimited by done.
  rewrite snoc2, removelast_last, last_snoc. by intros [= <-].
- rewrite trimMessages_positive by done.
  rewrite snoc2, (length_app _ [_]). cbn [length].
  rewrite drop_app_le by lia. rewrite removelast_last.
  set (k := (length (messages h ++ [userMessage env userInput h]) + 1
             - Z.to_nat maxMessages)%nat).
  destruct (Nat.le_gt_cases k (length (messages h))) as [Hk|Hk].
  + rewrite drop_app_le by done. rewrite last_snoc. by intros [= <-].
  + rewrite drop_ge by (rewrite length_app; simpl; lia). done.
Qed.

Lemma late_events_after_cancel_witness :
  trim (js "hi") <> [] /\
  messages (deliver [llm_token_event (js "late")]
              (stopStreaming
                 (deliver [] (sendMessage 0 StreamConfig example_env (js "hi") mounted))))
  = messages (stopStreaming
                (deliver [] (sendMessage 0 StreamConfig example_env (js "hi") mounted))).
Proof.
assert (H : trim (js "hi") <> []) by (vm_compute; discriminate).
split; [exact H|].
apply (late_events_after_cancel 0 StreamConfig example_env (js "hi") []
         [llm_token_event (js "late")] mounted H). constructor.
Defined.

(** X25.  After [clearChat] the history stays empty whatever events of a
    request still in flight are delivered: a cleared conversation is not
    brought back by late tokens. *)
Theorem clearChat_stays_empty events h :
  messages (deliver events (clearChat h)) = [].
Proof.
rewrite deliver_no_assistant; [done|]. by intros m.
Qed.

(** X26.  Removing an upload that was just added, when no other upload
    has its identifier, gives back the uploads there were, and touches no
    message. *)
Theorem removePdf_addPdf (pdf : IPdfFile) h :
  Forall (fun p => pdf_uuid p <> pdf_uuid pdf) (uploadedPdfs h) ->
  uploadedPdfs (removePdf (pdf_uuid pdf) (addPdf pdf h)) = uploadedPdfs h /\
  messages (removePdf (pdf_uuid pdf) (addPdf pdf h)) = messages h.
Proof.
intros Hfresh. split; [|done].
unfold removePdf, addPdf, set_uploadedPdfs. cbn [uploadedPdfs].
rewrite List.filter_app. cbn [List.filter].
assert (Hself : str_eqb (pdf_uuid pdf) (pdf_uuid pdf) = true) by by apply str_eqb_eq.
rewrite Hself. cbn [negb]. rewrite app_nil_r.
induction Hfresh as [|p ps Hp _ IH]; [done|]. cbn [List.filter].
destruct (str_eqb (pdf_uuid p) (pdf_uuid pdf)) eqn:He;
  [by apply str_eqb_eq in He|]. cbn [negb]. by rewrite IH.
Qed.

Lemma removePdf_addPdf_witness :
  Forall (fun p => pdf_uuid p <> pdf_uuid {| pdf_uuid := js "b"; pdf_name := js "b.pdf" |})
    (uploadedPdfs (addPdf {| pdf_uuid := js "a"; pdf_name := js "a.pdf" |} mounted)) /\
  uploadedPdfs
    (removePdf (js "b")
       (addPdf {| pdf_uuid := js "b"; pdf_name := js "b.pdf" |}
          (addPdf {| pdf_uuid := js "a"; pdf_name := js "a.pdf" |} mounted)))
  = uploadedPdfs (addPdf {| pdf_uuid := js "a"; pdf_name := js "a.pdf" |} mounted).
Proof.
assert (H : Forall (fun p => pdf_uuid p
                             <> pdf_uuid {| pdf_uuid := js "b"; pdf_name := js "b.pdf" |})
              (uploadedPdfs (addPdf {| pdf_uuid := js "a"; pdf_name := js "a.pdf" |}
                               mounted))).
{ constructor; [vm_compute; discriminate | constructor]. }
split; [exact H|].
apply (removePdf_addPdf {| pdf_uuid := js "b"; pdf_name := js "b.pdf" |}
         (addPdf {| pdf_uuid := js "a"; pdf_name := js "a.pdf" |} mounted) H).
Defined.

(** X27.  An input made of white space only starts no turn: [sendMessage]
    leaves the hook exactly as it was. *)
Theorem sendMessage_blank maxMessages transport env (userInput : jsstring) h :
  Forall (fun c => is_js_space c = true) userInput ->
  sendMessage maxMessages transport env userInput h = h.
Proof.
intros Hblank. unfold sendMessage.
assert (Ht : trim userInput = []).
{ rewrite <- (app_nil_r userInput). change (userInput ++ []) with (userInput ++ [] ++ []).
  rewrite trim_spaces; [done | done | constructor]. }
by rewrite Ht.
Qed.

Lemma sendMessage_blank_witness :
  Forall (fun c => is_js_space c = true) (js "  ") /\
  sendMessage 0 StreamConfig example_env (js "  ") mounted = mounted.
Proof.
assert (H : Forall (fun c => is_js_space c = true) (js "  ")) by (repeat constructor).
split; [exact H|].
apply (sendMessage_blank 0 StreamConfig example_env (js "  ") mounted H).
Defined.

(** X28.  In the request body of [openAIStreamConfig] the configured
    model wins: the model chosen for the message is used only when the
    configured model is the empty string, and the default [gpt-4] is used
    when no model is configured or both are empty. *)
Theorem openAI_request_model_precedence (modelName : jsstring) :
  openAI_request_model None modelName = js "gpt-4" /\
  (forall c configured,
     openAI_request_model (Some (c :: configured)) modelName = c :: configured) /\
  (forall c name, openAI_request_model (Some []) (c :: name) = c :: name) /\
  openAI_request_model (Some []) [] = js "gpt-4".
Proof. repeat apply conj; try reflexivity; by intros. Qed.
End TurnEdges.
